(** * GeoRoute: dispatch and shortest-path core

    A shallow embedding of the routing core of
    [src/georoute_react_prototype.jsx]: the [MinHeap] class, [dijkstra], the
    [REGIONAL_GRAPHS] tables, the round-robin selection and failure
    simulation of [submitRequest], and the nearest-node search of
    [handleAutoDetect].

    Modelling conventions.
    - A JavaScript array is a [list]; [heap[i]] is stdpp's list lookup and
      [heap[i] = x] is list insert.
    - A JavaScript object used as a dictionary ([graph], [dist], [prev]) is
      a [gmap string _]; a key that is absent reads as [None], which stands
      for [undefined].  A plain object reads so for every name except those
      that [Object.prototype] defines ([Object_prototype_names]), and it
      stores every key except [__proto__].  Where a theorem states the
      route that [dijkstra] returns for an identifier that may be absent,
      it excludes these names ([plain_identifier]); where it states it for
      the keys of an arbitrary graph, it excludes the key [__proto__].
    - Edge costs and queue priorities are exact integers ([Z]); the
      tentative distances add the value [Infinity].  JavaScript adds
      binary64 numbers, and that is the same addition as long as the sums
      stay within 2^53: [costs_exact] is a condition on the graph under
      which they do ([relax_sums_exact]).  The tables of the prototype hold
      small integer costs.
    - The coordinates of [NODE_COORDS] and the distances of the
      nearest-node search are binary64 numbers ([float]), with the
      operations of IEEE 754.
    - A [while] loop is a [Fixpoint] on a fuel argument that counts the
      remaining iterations; running out of fuel is [None] (for the two
      private heap loops, whose fuel is fixed by the caller, the current
      array) and the theorems show that the fuel supplied is enough. *)

From Stdlib Require Import PrimFloat.
From Stdlib Require FloatOps.
From stdpp Require Import gmap strings list fin_maps.
From Stdlib Require Import ZArith QArith Lia ZifyNat Sorted.

#[local] Ltac Zify.zify_post_hook ::= Z.to_euclidean_division_equations.

#[local] Open Scope Z_scope.
#[local] Open Scope nat_scope.

(** ** Part I: the program *)

(** *** MinHeap (lines 32-68) *)

Section MinHeapCode.
Context {A : Type}.

(** An entry is a two-element array [[priority, item]]. *)
#[local] Abbreviation entry := (Z * A)%type.

(** [Math.floor((n+1)/2)-1] *)
Definition parentOf (n : nat) : nat := (n + 1) / 2 - 1.

(** The [while (n>0)] loop of [_bubbleUp]; [el] is read once before the
    loop.  [parent] is always in range because [parentN < n]. *)
Fixpoint bubbleUp_loop (fuel : nat) (el : entry) (heap : list entry) (n : nat)
  : list entry :=
  match fuel with
  | O => heap
  | S fuel' =>
      if 0 <? n then
        let parentN := parentOf n in
        match heap !! parentN with
        | Some parent =>
            if (el.1 >=? parent.1)%Z then heap
            else bubbleUp_loop fuel' el (<[n := parent]> (<[parentN := el]> heap)) parentN
        | None => heap
        end
      else heap
  end.

Definition _bubbleUp (n : nat) (heap : list entry) : list entry :=
  match heap !! n with
  | Some el => bubbleUp_loop (S n) el heap n
  | None => heap
  end.

(** [push(item) { this.heap.push(item); this._bubbleUp(this.heap.length-1) }] *)
Definition push (item : entry) (heap : list entry) : list entry :=
  let heap1 := heap ++ [item] in
  _bubbleUp (length heap1 - 1) heap1.

(** The choice of [swap] in one round of [_sinkDown]. *)
Definition sinkDown_swap (el : entry) (heap : list entry) (n : nat) : option nat :=
  let len := length heap in
  let child2N := (n + 1) * 2 in
  let child1N := child2N - 1 in
  let swap1 :=
    if child1N <? len then
      match heap !! child1N with
      | Some child1 => if (child1.1 <? el.1)%Z then Some child1N else None
      | None => None
      end
    else None in
  if child2N <? len then
    match heap !! child2N with
    | Some child2 =>
        let bound := match swap1 with
                     | None => el.1
                     | Some _ => (default el (heap !! child1N)).1
                     end in
        if (bound >? child2.1)%Z then Some child2N else swap1
    | None => swap1
    end
  else swap1.

(** The [while (true)] loop of [_sinkDown]. *)
Fixpoint sinkDown_loop (fuel : nat) (el : entry) (heap : list entry) (n : nat)
  : list entry :=
  match fuel with
  | O => heap
  | S fuel' =>
      match sinkDown_swap el heap n with
      | None => heap
      | Some swap =>
          match heap !! swap with
          | Some x => sinkDown_loop fuel' el (<[swap := el]> (<[n := x]> heap)) swap
          | None => heap
          end
      end
  end.

Definition _sinkDown (n : nat) (heap : list entry) : list entry :=
  match heap !! n with
  | Some el => sinkDown_loop (length heap) el heap n
  | None => heap
  end.

(** [pop]: the result is the returned value ([None] for [null]) and the
    array left behind. *)
Definition pop (heap : list entry) : option entry * list entry :=
  match heap !! 0 with
  | None => (None, heap)
  | Some top =>
      let end_ := last heap in
      let heap1 := removelast heap in
      match end_ with
      | Some e =>
          if 0 <? length heap1 then (Some top, _sinkDown 0 (<[0 := e]> heap1))
          else (Some top, heap1)
      | None => (Some top, heap1)
      end
  end.

(** The binary min-heap order on priorities. *)
Definition le_at (heap : list entry) (i j : nat) : Prop :=
  ∀ x y, heap !! i = Some x → heap !! j = Some y → (x.1 ≤ y.1)%Z.

Definition heap_ordered (heap : list entry) : Prop :=
  ∀ i, 0 < i → le_at heap (parentOf i) i.

End MinHeapCode.

(** *** dijkstra (lines 71-89) *)

(** [{to, cost}] *)
Record Edge := { to : string; cost : Z }.

Abbreviation Graph := (gmap string (list Edge)).

(** A tentative distance: a number or [Infinity]. *)
Inductive num := Num (z : Z) | Infinity.

(** [alt < dist[v]]; a comparison with [undefined] is false. *)
Definition lt_dist (alt : Z) (dv : option num) : bool :=
  match dv with
  | Some (Num y) => (alt <? y)%Z
  | Some Infinity => true
  | None => false
  end.

(** [d > dist[u]] *)
Definition gt_dist (d : Z) (du : option num) : bool :=
  match du with
  | Some (Num y) => (y <? d)%Z
  | _ => false
  end.

(** [dist[dst] === Infinity] *)
Definition is_Infinity (dv : option num) : bool :=
  match dv with
  | Some Infinity => true
  | _ => false
  end.

Record SearchState := {
  dist : gmap string num;
  prev : gmap string (option string);
  pq : list (Z * string)
}.

(** The body of [for (const edge of graph[u])]. *)
Definition relax (d : Z) (u : string) (st : SearchState) (edge : Edge) : SearchState :=
  let v := to edge in
  let alt := (d + cost edge)%Z in
  if lt_dist alt (dist st !! v) then
    {| dist := <[v := Num alt]> (dist st);
       prev := <[v := Some u]> (prev st);
       pq := push (alt, v) (pq st) |}
  else st.

(** How the [while (true)] loop ends: by one of its two [break]s, or by the
    TypeError raised when [graph[u]] is [undefined] and is iterated. *)
Inductive LoopEnd := LoopBreak (st : SearchState) | LoopThrow.

Fixpoint search_loop (fuel : nat) (graph : Graph) (dst : string) (st : SearchState)
  : option LoopEnd :=
  match fuel with
  | O => None
  | S fuel' =>
      match pop (pq st) with
      | (None, _) => Some (LoopBreak st)
      | (Some (d, u), pq') =>
          let st1 := {| dist := dist st; prev := prev st; pq := pq' |} in
          if gt_dist d (dist st !! u) then search_loop fuel' graph dst st1
          else if String.eqb u dst then Some (LoopBreak st1)
          else match graph !! u with
               | None => Some LoopThrow
               | Some edges => search_loop fuel' graph dst (fold_left (relax d u) edges st1)
               end
      end
  end.

(** [let u = dst; while (u) { path.unshift(u); u = prev[u] }].  The value of
    [u] is a string, or [None] for [null] and [undefined]; the empty string
    is falsy. *)
Fixpoint build_path (fuel : nat) (prev : gmap string (option string))
    (u : option string) (path : list string) : option (list string) :=
  match u with
  | None => Some path
  | Some s =>
      if String.eqb s "" then Some path
      else match fuel with
           | O => None
           | S fuel' => build_path fuel' prev (mjoin (prev !! s)) (s :: path)
           end
  end.

(** [{ path, distance: dist[dst] }]; [distance] is [None] when [dist[dst]]
    is [undefined]. *)
Record Route := { path : list string; distance : option num }.

(** What a call of [dijkstra] produces: [null], a route object, or an
    uncaught TypeError. *)
Inductive Outcome := Null | Found (r : Route) | TypeError.

Definition init_state (graph : Graph) (src : string) : SearchState :=
  {| dist := <[src := Num 0]> ((λ _, Infinity) <$> graph);
     prev := (λ _, None) <$> graph;
     pq := push (0%Z, src) [] |}.

Definition dijkstra_fuel (fuel : nat) (graph : Graph) (src dst : string)
  : option Outcome :=
  match search_loop fuel graph dst (init_state graph src) with
  | None => None
  | Some LoopThrow => Some TypeError
  | Some (LoopBreak st) =>
      if is_Infinity (dist st !! dst) then Some Null
      else match build_path fuel (prev st) (Some dst) [] with
           | None => None
           | Some p => Some (Found {| path := p; distance := dist st !! dst |})
           end
  end.

(** The number of edges of the graph. *)
Definition edge_count (graph : Graph) : nat :=
  sum_list_with (λ entry, length entry.2) (map_to_list graph).

(** [dijkstra] with an iteration budget that is enough for every graph with
    non-negative costs ([dijkstra_fuel_enough] below). *)
Definition dijkstra (graph : Graph) (src dst : string) : option Outcome :=
  dijkstra_fuel (edge_count graph + size graph + 2) graph src dst.

(** *** Graphs, walks and shortest distances *)

(** [e] is one of the outgoing edges stored under the key [u]. *)
Definition has_edge (graph : Graph) (u : string) (e : Edge) : Prop :=
  ∃ edges, graph !! u = Some edges ∧ e ∈ edges.

(** Every node referenced as an edge endpoint is a key of the graph. *)
Definition endpoints_closed (graph : Graph) : Prop :=
  ∀ u e, has_edge graph u e → is_Some (graph !! to e).

Definition costs_nonneg (graph : Graph) : Prop :=
  ∀ u e, has_edge graph u e → (0 ≤ cost e)%Z.

(** The sums [d + edge.cost] of the search are sums of binary64 numbers.
    The integers from 0 to 2^53 are binary64 numbers, and the sum of two of
    them is exact when it does not exceed 2^53.  A tentative distance is the
    cost of a path that visits no node twice, of fewer edges than the graph
    has nodes: every sum is exact when each cost, times the number of nodes,
    stays within 2^53 ([relax_sums_exact] below). *)
Definition costs_exact (graph : Graph) : Prop :=
  ∀ u e, has_edge graph u e → (cost e * Z.of_nat (size graph) ≤ 2 ^ 53)%Z.

(** The property names that every plain object inherits from
    [Object.prototype].  Reading one of them from [graph], [dist] or [prev]
    gives the inherited value and not [undefined], unless the object has
    the name as a key of its own; an assignment to [__proto__] creates no
    key. *)
Definition Object_prototype_names : list string :=
  ["constructor"; "__defineGetter__"; "__defineSetter__"; "hasOwnProperty";
   "__lookupGetter__"; "__lookupSetter__"; "isPrototypeOf";
   "propertyIsEnumerable"; "toString"; "valueOf"; "__proto__";
   "toLocaleString"]%string.

(** An identifier that reads as [undefined] from a plain object of which it
    is no key, and that is not the falsy empty string. *)
Definition plain_identifier (s : string) : Prop :=
  s ≠ ""%string ∧ s ∉ Object_prototype_names.

(** [walk graph src p v c]: [p] is the node sequence of a directed path from
    [src] to [v], following one edge of the graph per step, and [c] is the
    sum of the costs of these edges. *)
Inductive walk (graph : Graph) (src : string) : list string → string → Z → Prop :=
| walk_start : walk graph src [src] src 0
| walk_step p u c e :
    walk graph src p u c → has_edge graph u e →
    walk graph src (p ++ [to e]) (to e) (c + cost e).

Definition reachable (graph : Graph) (src dst : string) : Prop :=
  ∃ p c, walk graph src p dst c.

(** What the specification promises of [Compute(src, dst)]: [NotFound]
    exactly when [dst] is unreachable, and otherwise a path of minimum
    total cost together with that cost. *)
Definition shortest_path_result (graph : Graph) (src dst : string)
    (r : option Outcome) : Prop :=
  (¬ reachable graph src dst → r = Some Null) ∧
  (reachable graph src dst →
   ∃ p d, r = Some (Found {| path := p; distance := Some (Num d) |}) ∧
          walk graph src p dst d ∧
          ∀ p' d', walk graph src p' dst d' → (d ≤ d')%Z).

(** *** REGIONAL_GRAPHS (lines 92-122) *)

Definition edge (t : string) (c : Z) : Edge := {| to := t; cost := c |}.

Definition server1 : Graph :=
  list_to_map
    [("A", [edge "B" 1; edge "C" 2]);
     ("B", [edge "A" 1; edge "D" 2]);
     ("C", [edge "A" 2; edge "F" 3]);
     ("D", [edge "B" 2; edge "E" 2]);
     ("E", [edge "D" 2; edge "G" 3]);
     ("F", [edge "C" 3; edge "G" 1]);
     ("G", [edge "F" 1; edge "E" 3])]%string.

Definition server2 : Graph :=
  list_to_map
    [("A", [edge "B" 1; edge "C" 3]);
     ("B", [edge "A" 1; edge "D" 1]);
     ("C", [edge "A" 3; edge "F" 2]);
     ("D", [edge "B" 1; edge "E" 4]);
     ("E", [edge "D" 4; edge "G" 1]);
     ("F", [edge "C" 2; edge "G" 2]);
     ("G", [edge "F" 2; edge "E" 1])]%string.

Definition server3 : Graph :=
  list_to_map
    [("A", [edge "C" 2]);
     ("C", [edge "A" 2; edge "F" 2]);
     ("F", [edge "C" 2; edge "G" 1]);
     ("G", [edge "F" 1]);
     ("B", [edge "D" 2]);
     ("D", [edge "B" 2]);
     ("E", [])]%string.

Definition REGIONAL_GRAPHS : list Graph := [server1; server2; server3].

(** Two graphs outside the tables of the prototype, in which the empty
    string is a node identifier. *)
Definition empty_id_graph : Graph :=
  list_to_map [("", [edge "B" 1]); ("B", [])]%string.

Definition empty_id_node : Graph :=
  list_to_map [("", [])]%string.

(** *** Dispatch and failure simulation: submitRequest (lines 212-230) *)

(** [roundRobinState % backendCount] followed by
    [setRoundRobinState(s => s+1)]: the selected index and the new counter.
    The prototype has three servers. *)
Definition selectBackend (backendCount counter : nat) : nat * nat :=
  (counter mod backendCount, counter + 1).

Definition BACKEND_COUNT : nat := 3.

(** The lines written by [addLog], by the place that writes them. *)
Inductive LogEntry :=
| LogSelectBoth
| LogForwarding (server : nat)
| LogFailed (server : nat)
| LogNoRoute (server : nat) (fromNode toNode : string)
| LogRouteFound (server : nat) (r : Route).

(** The application state that [submitRequest] reads and writes.
    [engineCalls] is instrumentation: it counts the calls of [dijkstra]
    (the call-count probe of the specification); the source has no such
    field. *)
Record AppState := {
  roundRobinState : nat;
  logs : list LogEntry;
  engineCalls : nat
}.

(** [setLogs(l => [{t, text}, ...l].slice(0,50))] *)
Definition addLog (e : LogEntry) (st : AppState) : AppState :=
  {| roundRobinState := roundRobinState st;
     logs := take 50 (e :: logs st);
     engineCalls := engineCalls st |}.

Definition setRoundRobinState (c : nat) (st : AppState) : AppState :=
  {| roundRobinState := c; logs := logs st; engineCalls := engineCalls st |}.

Definition countEngineCall (st : AppState) : AppState :=
  {| roundRobinState := roundRobinState st;
     logs := logs st;
     engineCalls := S (engineCalls st) |}.

(** The ways a call of [submitRequest] ends, by its [return] statements:
    the guard on the endpoints, the simulated failure, no route, a route,
    an uncaught exception of the engine.  [Unfinished] stands for an
    engine run that exhausts its budget. *)
Inductive RouteResult :=
| MissingEndpoint
| BackendFailure (serverIndex : nat)
| NotFound (serverIndex : nat)
| RouteFound (serverIndex : nat) (r : Route)
| RequestError (serverIndex : nat)
| Unfinished (serverIndex : nat).

(** [!fromNode] is false exactly for a non-empty string. *)
Definition truthy (node : option string) : bool :=
  match node with
  | Some s => negb (String.eqb s "")
  | None => false
  end.

(** [Math.random() < simulateFailureRate] *)
Definition Qltb (a b : Q) : bool := negb (Qle_bool b a).

(** [submitRequest]: [fromNode] and [toNode] are the current selection,
    [random] is the value drawn by [Math.random()] for [willFail].  The
    latency delay and the drawing of the route on the globe are left out. *)
Definition submitRequest (fromNode toNode : option string)
    (simulateFailureRate random : Q) (st : AppState) : RouteResult * AppState :=
  if negb (truthy fromNode) || negb (truthy toNode) then
    (MissingEndpoint, addLog LogSelectBoth st)
  else
    let f := default ""%string fromNode in
    let t := default ""%string toNode in
    let '(serverIndex, counter) := selectBackend BACKEND_COUNT (roundRobinState st) in
    let st1 := addLog (LogForwarding (serverIndex + 1)) (setRoundRobinState counter st) in
    let willFail := Qltb random simulateFailureRate in
    if willFail then
      (BackendFailure serverIndex, addLog (LogFailed (serverIndex + 1)) st1)
    else
      let st2 := countEngineCall st1 in
      match REGIONAL_GRAPHS !! serverIndex with
      | None => (RequestError serverIndex, st2)
      | Some graph =>
          match dijkstra graph f t with
          | None => (Unfinished serverIndex, st2)
          | Some TypeError => (RequestError serverIndex, st2)
          | Some Null =>
              (NotFound serverIndex, addLog (LogNoRoute (serverIndex + 1) f t) st2)
          | Some (Found r) =>
              (RouteFound serverIndex r, addLog (LogRouteFound (serverIndex + 1) r) st2)
          end
      end.

(** A request as the user interface issues it. *)
Record Request := {
  req_from : option string;
  req_to : option string;
  req_rate : Q;
  req_random : Q
}.

Definition submit (st : AppState) (r : Request) : AppState :=
  (submitRequest (req_from r) (req_to r) (req_rate r) (req_random r) st).2.

Definition reaches_dispatch (r : Request) : bool :=
  truthy (req_from r) && truthy (req_to r).

(** *** Nearest node: handleAutoDetect (lines 246-251) *)

(** The operations on JavaScript numbers that the search uses. *)
Class JsNumber (N : Type) := {
  js_sub : N → N → N;
  js_hypot : N → N → N;
  js_lt : N → N → bool;
  js_infinity : N
}.

Record Coord (N : Type) := { lat : N; lon : N }.
Arguments lat {N} _.
Arguments lon {N} _.

Section NearestNodeCode.
Context {N : Type} `{JsNumber N}.

(** [Math.hypot((lat-c.lat), (lon-c.lon))] *)
Definition degree_distance (lat0 lon0 : N) (c : Coord N) : N :=
  js_hypot (js_sub lat0 (lat c)) (js_sub lon0 (lon c)).

(** The body of the [for] loop over [Object.entries(NODE_COORDS)]. *)
Definition nearest_step (lat0 lon0 : N) (acc : option string * N)
    (entry : string * Coord N) : option string * N :=
  let d := degree_distance lat0 lon0 entry.2 in
  if js_lt d acc.2 then (Some entry.1, d) else acc.

Definition nearestNode (coords : list (string * Coord N)) (lat0 lon0 : N)
  : option string :=
  (fold_left (nearest_step lat0 lon0) coords (None, js_infinity)).1.
End NearestNodeCode.


(** The numbers of JavaScript are the binary64 numbers: [-] and [<] are the
    operations of IEEE 754.  [Math.hypot] is implementation-approximated in
    ECMAScript: infinite when an argument is infinite, otherwise NaN when
    an argument is NaN, otherwise close to the square root of the sum of
    the squares, without overflow where that root is a number.  It is
    computed here as engines do, scaled by the larger magnitude; an engine
    may differ from it in the last bits of the result. *)
Definition float_hypot (x y : float) : float :=
  let ax := abs x in
  let ay := abs y in
  let max1 := if is_nan x then zero else if (zero <? ax)%float then ax else zero in
  let max := if is_nan y then max1 else if (max1 <? ay)%float then ay else max1 in
  if (max =? infinity)%float then infinity
  else if is_nan x || is_nan y then nan
  else if (max =? zero)%float then zero
  else
    let nx := (ax / max)%float in
    let ny := (ay / max)%float in
    (sqrt (nx * nx + ny * ny) * max)%float.

#[export] Instance float_JsNumber : JsNumber float :=
  {| js_sub := sub; js_hypot := float_hypot; js_lt := ltb;
     js_infinity := infinity |}.

(** The exact value of a finite binary64 number: sign, mantissa and
    exponent, [(-1)^s * m * 2^e]. *)
Definition float_val (x : float) : Q :=
  match FloatOps.Prim2SF x with
  | SpecFloat.S754_finite s m e =>
      (inject_Z (if s then Z.neg m else Z.pos m) * 2 ^ e)%Q
  | _ => 0%Q
  end.

Definition coord (la lo : float) : Coord float := {| lat := la; lon := lo |}.

(** [NODE_COORDS] (lines 125-133), in iteration order. *)
#[warnings="-inexact-float"] Definition NODE_COORDS : list (string * Coord float) :=
  [("A"%string, coord (-33.9249) 18.4241);
   ("B"%string, coord (-26.2041) 28.0473);
   ("C"%string, coord (-29.8579) 31.0292);
   ("D"%string, coord (-25.7461) 28.1881);
   ("E"%string, coord (-33.4608) 22.9375);
   ("F"%string, coord (-30.5595) 22.9375);
   ("G"%string, coord (-34.0000) 25.0000)]%float.

(** *** Iterated requests *)


(** The cyclic sequence of [n] indices that starts at [counter mod k]. *)
Definition cycle (k counter n : nat) : list nat :=
  (λ j, (counter + j) mod k) <$> seq 0 n.


Definition submit_all (st : AppState) (requests : list Request) : AppState :=
  fold_left submit requests st.

(** Decision procedures for the conditions on a graph. *)
Definition graph_ok (graph : Graph) : bool :=
  forallb (λ entry : string * list Edge,
             forallb (λ e, bool_decide (is_Some (graph !! to e)) && (0 <=? cost e)%Z)
                     entry.2)
          (map_to_list graph).

Definition graph_exact (graph : Graph) : bool :=
  forallb (λ entry : string * list Edge,
             forallb (λ e, (cost e * Z.of_nat (size graph) <=? 2 ^ 53)%Z) entry.2)
          (map_to_list graph).

(** *** Sequences of heap operations *)

(** [for (const item of items) pq.push(item)] *)
Definition push_all {A : Type} (items heap : list (Z * A)) : list (Z * A) :=
  fold_left (λ h item, push item h) items heap.

(** [n] calls of [pop] in a row, stopping at the first [null]: the entries
    returned, in the order of the calls, and the array left behind. *)
Fixpoint pop_many {A : Type} (n : nat) (heap : list (Z * A))
  : list (Z * A) * list (Z * A) :=
  match n with
  | O => ([], heap)
  | S n' =>
      match pop heap with
      | (Some top, heap1) =>
          let '(tops, heap2) := pop_many n' heap1 in (top :: tops, heap2)
      | (None, heap1) => ([], heap1)
      end
  end.

(** *** Sequences of requests, with their results *)

(** The results of the requests, in the order they are submitted. *)
Fixpoint submit_results (st : AppState) (requests : list Request) : list RouteResult :=
  match requests with
  | [] => []
  | r :: requests' =>
      let '(res, st1) :=
        submitRequest (req_from r) (req_to r) (req_rate r) (req_random r) st in
      res :: submit_results st1 requests'
  end.

(** The server a result names, if the request was dispatched. *)
Definition result_server (res : RouteResult) : option nat :=
  match res with
  | MissingEndpoint => None
  | BackendFailure i | NotFound i | RouteFound i _ | RequestError i | Unfinished i =>
      Some i
  end.

(** The request was dispatched and its failure draw let it through. *)
Definition reaches_engine (r : Request) : bool :=
  reaches_dispatch r && negb (Qltb (req_random r) (req_rate r)).

(** *** Drawing the route (lines 233-237) *)

(** [NODE_COORDS] as the object it is: [NODE_COORDS[n]]. *)
Definition NODE_COORDS_object : gmap string (Coord float) := list_to_map NODE_COORDS.

(** The arguments of [Cesium.Cartesian3.fromDegrees(c.lon, c.lat, 150)]. *)
Record Degrees := { deg_lon : float; deg_lat : float; deg_height : Z }.

(** [result.path.map(n => { const c = NODE_COORDS[n]; return
    Cartesian3.fromDegrees(c.lon, c.lat, 150) })].  Reading [c.lon] of an
    [undefined] entry raises a TypeError, which ends the whole [map]: the
    result is then [None]. *)
Definition route_positions (route : list string) : option (list Degrees) :=
  mapM (λ n, c ← NODE_COORDS_object !! n;
             Some {| deg_lon := lon c; deg_lat := lat c; deg_height := 150 |})
       route.

(** *** Picking a node on the globe (lines 163-182) *)

(** [id: 'node-'+id], the identifier of the marker of a node. *)
Definition nodeEntityId (id : string) : string := ("node-" ++ id)%string.

(** [s.slice(n)] for [0 <= n]: [s] without its first [n] characters. *)
Fixpoint slice (n : nat) (s : string) : string :=
  match n, s with
  | O, _ => s
  | S n', String _ s' => slice n' s'
  | S _, EmptyString => EmptyString
  end.

(** [s.startsWith(p)] *)
Fixpoint startsWith (p s : string) : bool :=
  match p, s with
  | EmptyString, _ => true
  | String a p', String b s' => Ascii.eqb a b && startsWith p' s'
  | String _ _, EmptyString => false
  end.

(** The selection held in the state variables [fromNode] and [toNode]. *)
Record Selection := { sel_from : option string; sel_to : option string }.

Inductive ClickLog := SelectedFrom (nodeId : string) | SelectedTo (nodeId : string).

(** The body of the LEFT_CLICK handler.  [seenFrom] and [seenTo] are the
    values of [fromNode] and [toNode] that the handler reads; [pickedId] is
    [picked.id.id] ([None] when nothing with an identifier is picked); the
    state setters act on the current selection [sel].  The result is the new
    selection and the line logged, if any. *)
Definition onLeftClick (seenFrom seenTo : option string) (pickedId : option string)
    (sel : Selection) : Selection * option ClickLog :=
  match pickedId with
  | Some entityId =>
      if negb (String.eqb entityId "") && startsWith "node-" entityId then
        let nodeId := slice 5 entityId in
        if negb (truthy seenFrom) || (truthy seenFrom && truthy seenTo) then
          ({| sel_from := Some nodeId; sel_to := None |}, Some (SelectedFrom nodeId))
        else
          ({| sel_from := sel_from sel; sel_to := Some nodeId |},
           Some (SelectedTo nodeId))
      else (sel, None)
  | None => (sel, None)
  end.

(** The handler as it is installed: the effect that installs it has the
    dependency list [[]], so it runs once, after the first render, and the
    handler keeps reading the [fromNode] and [toNode] of that render, which
    are the initial values ['A'] and ['G'] of [useState]. *)
Definition installedClickHandler : option string → Selection → Selection * option ClickLog :=
  onLeftClick (Some "A"%string) (Some "G"%string).

(** ** Part II: invariants *)

(** The priority stored at index [i]. *)
Definition key {A : Type} (heap : list (Z * A)) (i : nat) : Z :=
  from_option fst 0%Z (heap !! i).

(** During [_bubbleUp]: the order holds everywhere except between [n] and
    its parent, and the children of [n] are above the parent of [n]. *)
Definition up_inv {A : Type} (heap : list (Z * A)) (n : nat) : Prop :=
  (∀ i, 0 < i < length heap → i ≠ n → (key heap (parentOf i) ≤ key heap i)%Z) ∧
  (∀ i, 0 < i < length heap → parentOf i = n → 0 < n →
        (key heap (parentOf n) ≤ key heap i)%Z).

(** During [_sinkDown]: the order holds everywhere except between [n] and
    its children, and the children of [n] are above the parent of [n]. *)
Definition down_inv {A : Type} (heap : list (Z * A)) (n : nat) : Prop :=
  (∀ i, 0 < i < length heap → parentOf i ≠ n →
        (key heap (parentOf i) ≤ key heap i)%Z) ∧
  (∀ i, 0 < i < length heap → parentOf i = n → 0 < n →
        (key heap (parentOf n) ≤ key heap i)%Z).

(** A node is final when it has a finite tentative distance and the queue
    holds no entry with that distance for it. *)
Definition final (st : SearchState) (v : string) : Prop :=
  ∃ x, dist st !! v = Some (Num x) ∧ (x, v) ∉ pq st.

Definition finalb (st : SearchState) (v : string) : bool :=
  match dist st !! v with
  | Some (Num x) => bool_decide ((x, v) ∉ pq st)
  | _ => false
  end.

(** The walk that the [prev] links spell out, with its cost. *)
Inductive chain (graph : Graph) (src : string) (pr : gmap string (option string)) :
    list string → string → Z → Prop :=
| chain_start : pr !! src = Some None → chain graph src pr [src] src 0
| chain_step p u c e :
    chain graph src pr p u c → has_edge graph u e → pr !! to e = Some (Some u) →
    chain graph src pr (p ++ [to e]) (to e) (c + cost e).

(** The invariant of the [while] loop of [dijkstra].  [u] and [rest]
    describe the [for] loop in progress: the edges of [u] that are still to
    be relaxed ([rest] is empty between two rounds of the [while] loop). *)
Record Inv (graph : Graph) (src : string) (u : string) (rest : list Edge)
    (st : SearchState) : Prop := {
  inv_ordered : heap_ordered (pq st);
  inv_nodup : NoDup (pq st);
  inv_dom_dist : dom (dist st) = dom graph;
  inv_dom_prev : dom (prev st) = dom graph;
  inv_src : ∃ y, dist st !! src = Some (Num y) ∧ (y ≤ 0)%Z;
  inv_pq : ∀ d v, (d, v) ∈ pq st → ∃ x, dist st !! v = Some (Num x) ∧ (x ≤ d)%Z;
  inv_chain : ∀ v x, dist st !! v = Some (Num x) →
    ∃ p, chain graph src (prev st) p v x ∧ NoDup p ∧
         ∀ t, t ∈ p → t ≠ v → final st t;
  inv_closed : ∀ v x e, dist st !! v = Some (Num x) → has_edge graph v e →
    (x, v) ∈ pq st ∨ (v = u ∧ e ∈ rest) ∨
    ∃ y, dist st !! to e = Some (Num y) ∧ (y ≤ x + cost e)%Z;
  inv_final : ∀ v x p c, dist st !! v = Some (Num x) → (x, v) ∉ pq st →
    walk graph src p v c → (x ≤ c)%Z
}.

Arguments inv_ordered {graph src u rest st} _.
Arguments inv_nodup {graph src u rest st} _.
Arguments inv_dom_dist {graph src u rest st} _.
Arguments inv_dom_prev {graph src u rest st} _.
Arguments inv_src {graph src u rest st} _.
Arguments inv_pq {graph src u rest st} _.
Arguments inv_chain {graph src u rest st} _.
Arguments inv_closed {graph src u rest st} _.
Arguments inv_final {graph src u rest st} _.

(** The termination measure of the [while] loop is the number of queued
    entries plus the number of edges that leave a node that is not final. *)
Definition weight (st : SearchState) (entry : string * list Edge) : nat :=
  if finalb st entry.1 then 0 else length entry.2.

Definition potential (graph : Graph) (st : SearchState) : nat :=
  sum_list_with (weight st) (map_to_list graph).

(** The destination is settled when its tentative distance bounds the cost
    of every walk that reaches it. *)
Definition settled (graph : Graph) (src dst : string) (st : SearchState) : Prop :=
  ∀ p c, walk graph src p dst c →
         ∃ y, dist st !! dst = Some (Num y) ∧ (y ≤ c)%Z.

(** What holds of the search on every graph, whatever its costs and edge
    endpoints: [dist] has the keys of the graph and [src], and every finite
    tentative distance and every queued priority is the cost of a walk from
    [src] to its node. *)
Definition realizable (graph : Graph) (src : string) (st : SearchState) : Prop :=
  dom (dist st) = dom graph ∪ {[src]} ∧
  (∀ v x, dist st !! v = Some (Num x) → ∃ p, walk graph src p v x) ∧
  (∀ d u, (d, u) ∈ pq st → is_Some (dist st !! u) ∧ ∃ p, walk graph src p u d).


(** ** Part III: the heap *)

Section MinHeapTheory.
Context {A : Type}.
Implicit Types (heap m tl : list (Z * A)) (el x y top e : Z * A).

Lemma parentOf_lt n : 0 < n → parentOf n < n.
Proof. unfold parentOf. lia. Qed.

Lemma lookup_exchange heap i j x y k :
  heap !! i = Some x → heap !! j = Some y →
  <[i := y]> (<[j := x]> heap) !! k =
    if decide (k = i) then Some y else if decide (k = j) then Some x else heap !! k.
Proof.
  intros Hi Hj. apply lookup_lt_Some in Hi as Hli. apply lookup_lt_Some in Hj as Hlj.
  case_decide; subst.
  { rewrite list_lookup_insert_eq; [done | rewrite length_insert; lia]. }
  rewrite list_lookup_insert_ne by done.
  case_decide; subst; [by rewrite list_lookup_insert_eq |].
  by rewrite list_lookup_insert_ne.
Qed.

Lemma insert_cons_perm heap j x y :
  heap !! j = Some y → y :: <[j := x]> heap ≡ₚ x :: heap.
Proof.
  revert j. induction heap as [|a heap IH]; intros [|j] Hj; simplify_eq/=.
  - apply perm_swap.
  - rewrite perm_swap, (IH _ Hj). apply perm_swap.
Qed.

Lemma exchange_perm heap i j x y :
  heap !! i = Some x → heap !! j = Some y →
  <[i := y]> (<[j := x]> heap) ≡ₚ heap.
Proof.
  intros Hi Hj. destruct (decide (i = j)) as [->|Hne].
  { simplify_eq. rewrite list_insert_insert_eq. by rewrite list_insert_id. }
  apply (Permutation_cons_inv (a := x)).
  rewrite insert_cons_perm; [by apply insert_cons_perm |].
  by rewrite list_lookup_insert_ne.
Qed.


Lemma key_Some heap i x : heap !! i = Some x → key heap i = x.1.
Proof. unfold key. by intros ->. Qed.

Lemma key_exchange heap i j x y k :
  heap !! i = Some x → heap !! j = Some y →
  key (<[i := y]> (<[j := x]> heap)) k =
    if decide (k = i) then y.1 else if decide (k = j) then x.1 else key heap k.
Proof.
  intros Hi Hj. unfold key. rewrite (lookup_exchange _ _ _ _ _ _ Hi Hj).
  by repeat case_decide.
Qed.

Lemma heap_ordered_key heap :
  heap_ordered heap ↔
  ∀ i, 0 < i < length heap → (key heap (parentOf i) ≤ key heap i)%Z.
Proof.
  split.
  - intros Hord i [Hi Hlen]. pose proof (parentOf_lt i Hi) as Hp.
    destruct (lookup_lt_is_Some_2 heap i Hlen) as [y Hy].
    destruct (lookup_lt_is_Some_2 heap (parentOf i)) as [x Hx]; [lia |].
    rewrite (key_Some _ _ _ Hx), (key_Some _ _ _ Hy). by eapply Hord.
  - intros Hkey i Hi x y Hx Hy.
    rewrite <-(key_Some _ _ _ Hx), <-(key_Some _ _ _ Hy).
    apply Hkey. split; [done |]. by eapply lookup_lt_Some.
Qed.


Ltac heap_arith :=
  repeat match goal with
         | H : parentOf _ = _ |- _ => rewrite ?H in *; revert H
         end;
  intros; lia.

Lemma up_inv_exchange heap n el parent :
  0 < n → heap !! n = Some el → heap !! parentOf n = Some parent →
  (el.1 < parent.1)%Z → up_inv heap n →
  up_inv (<[n := parent]> (<[parentOf n := el]> heap)) (parentOf n).
Proof.
  intros Hn Hel Hpar Hlt [H1 H2].
  pose proof (parentOf_lt n Hn) as Hpn.
  pose proof (key_Some _ _ _ Hel) as Kel. pose proof (key_Some _ _ _ Hpar) as Kpar.
  split; intros i; rewrite !length_insert; intros Hi;
    rewrite !(key_exchange _ _ _ _ _ _ Hel Hpar);
    pose proof (parentOf_lt i) as Hpi;
    pose proof (H1 i) as H1i; pose proof (H2 i) as H2i;
    pose proof (H1 (parentOf n)) as H1p;
    pose proof (parentOf_lt (parentOf n)) as Hpp.
  - intros Hne. repeat case_decide; subst; heap_arith.
  - intros Hp Hp0. pose proof (H1 (parentOf i)).
    repeat case_decide; subst; heap_arith.
Qed.

Lemma bubbleUp_loop_ordered fuel el heap n :
  n < fuel → heap !! n = Some el → up_inv heap n →
  heap_ordered (bubbleUp_loop fuel el heap n).
Proof.
  revert heap n. induction fuel as [|fuel IH]; intros heap n Hfuel Hel Hinv; [lia |].
  simpl. destruct (Nat.ltb_spec 0 n) as [Hn|Hn].
  - pose proof (parentOf_lt n Hn) as Hpn.
    apply lookup_lt_Some in Hel as Hlen.
    destruct (lookup_lt_is_Some_2 heap (parentOf n)) as [parent Hpar]; [lia |].
    rewrite Hpar. rewrite Z.geb_leb. destruct (Z.leb_spec parent.1 el.1) as [Hle|Hlt].
    + apply heap_ordered_key. intros i Hi. destruct Hinv as [H1 _].
      destruct (decide (i = n)) as [->|Hne]; [|by apply H1].
      by rewrite (key_Some _ _ _ Hel), (key_Some _ _ _ Hpar).
    + apply IH; [lia | | by apply up_inv_exchange].
      rewrite (lookup_exchange _ _ _ _ _ _ Hel Hpar).
      repeat case_decide; try done; lia.
  - apply heap_ordered_key. intros i Hi. destruct Hinv as [H1 _]. apply H1; lia.
Qed.

(** The budget [S n] of [_bubbleUp] is enough: a larger one gives the same
    array. *)
Lemma bubbleUp_loop_fuel fuel1 fuel2 el heap n :
  n < fuel1 → n < fuel2 →
  bubbleUp_loop fuel1 el heap n = bubbleUp_loop fuel2 el heap n.
Proof.
  revert fuel2 heap n. induction fuel1 as [|fuel1 IH]; intros [|fuel2] heap n H1 H2; try lia.
  simpl. destruct (Nat.ltb_spec 0 n) as [Hn|Hn]; [|done].
  destruct (heap !! parentOf n) as [parent|]; [|done].
  destruct (el.1 >=? parent.1)%Z; [done |].
  pose proof (parentOf_lt n Hn). apply IH; lia.
Qed.

Lemma bubbleUp_loop_perm fuel el heap n :
  heap !! n = Some el → bubbleUp_loop fuel el heap n ≡ₚ heap.
Proof.
  revert heap n. induction fuel as [|fuel IH]; intros heap n Hel; [done |].
  simpl. destruct (0 <? n); [|done].
  destruct (heap !! parentOf n) as [parent|] eqn:Hpar; [|done].
  destruct (el.1 >=? parent.1)%Z; [done |].
  destruct (decide (parentOf n = n)) as [Heq|Hne].
  { rewrite Heq in *. simplify_eq. rewrite IH.
    - rewrite list_insert_insert_eq. by rewrite list_insert_id.
    - apply list_lookup_insert_eq. rewrite length_insert. by eapply lookup_lt_Some. }
  rewrite IH; [by apply exchange_perm |].
  rewrite (lookup_exchange _ _ _ _ _ _ Hel Hpar).
  repeat case_decide; done.
Qed.

Lemma heap_ordered_nil : heap_ordered (@nil (Z * A)).
Proof. intros i _ x y Hx. by rewrite lookup_nil in Hx. Qed.

Lemma push_ordered item heap : heap_ordered heap → heap_ordered (push item heap).
Proof.
  intros Hord. unfold push, _bubbleUp.
  replace (length (heap ++ [item]) - 1) with (length heap)
    by (rewrite length_app; simpl; lia).
  rewrite list_lookup_middle by done.
  apply bubbleUp_loop_ordered; [lia | by apply list_lookup_middle |].
  pose proof (proj1 (heap_ordered_key _) Hord) as Hkey. clear Hord.
  assert (∀ i, i < length heap → key (heap ++ [item]) i = key heap i) as Hk.
  { intros i Hi. unfold key. by rewrite lookup_app_l. }
  split.
  - intros i. rewrite length_app. simpl. intros Hi Hne.
    pose proof (parentOf_lt i). rewrite !Hk by lia. apply Hkey. lia.
  - intros i. rewrite length_app. simpl. intros Hi Hp Hlen.
    pose proof (parentOf_lt i). lia.
Qed.

Lemma push_perm item heap : push item heap ≡ₚ item :: heap.
Proof.
  unfold push, _bubbleUp.
  replace (length (heap ++ [item]) - 1) with (length heap)
    by (rewrite length_app; simpl; lia).
  rewrite list_lookup_middle by done.
  rewrite bubbleUp_loop_perm by (by apply list_lookup_middle).
  by rewrite Permutation_app_comm.
Qed.

Lemma children_of n i :
  0 < i → parentOf i = n → i = (n + 1) * 2 - 1 ∨ i = (n + 1) * 2.
Proof. unfold parentOf. lia. Qed.

Lemma key_lt heap i : i < length heap → ∃ x, heap !! i = Some x ∧ key heap i = x.1.
Proof.
  intros Hi. destruct (lookup_lt_is_Some_2 heap i Hi) as [x Hx].
  exists x. split; [done | by apply key_Some].
Qed.

(** What the selection of [swap] guarantees. *)
Lemma sinkDown_swap_Some el heap n s :
  sinkDown_swap el heap n = Some s →
  n < s < length heap ∧ parentOf s = n ∧ (key heap s < el.1)%Z ∧
  ∀ i, 0 < i < length heap → parentOf i = n → (key heap s ≤ key heap i)%Z.
Proof.
  unfold sinkDown_swap.
  assert (parentOf ((n + 1) * 2 - 1) = n ∧ parentOf ((n + 1) * 2) = n) as [Hp1 Hp2]
    by (unfold parentOf; lia).
  pose proof (children_of n) as Hch.
  destruct (Nat.ltb_spec ((n + 1) * 2 - 1) (length heap)) as [H1|H1];
    destruct (Nat.ltb_spec ((n + 1) * 2) (length heap)) as [H2|H2]; try lia.
  - destruct (key_lt heap _ H1) as (c1 & -> & K1).
    destruct (key_lt heap _ H2) as (c2 & -> & K2). simpl.
    destruct (Z.ltb_spec c1.1 el.1); simpl; rewrite Z.gtb_ltb;
      [destruct (Z.ltb_spec c2.1 c1.1) | destruct (Z.ltb_spec c2.1 el.1)];
      intros; simplify_eq;
      (split; [lia |]; split; [done |]; split; [lia |]);
      intros i Hi Hp; (destruct (Hch i) as [Hc|Hc]; [lia | done | rewrite Hc; lia ..]).
  - destruct (key_lt heap _ H1) as (c1 & -> & K1).
    destruct (Z.ltb_spec c1.1 el.1); intros; simplify_eq.
    split; [lia |]; split; [done |]; split; [lia |].
    intros i Hi Hp; destruct (Hch i) as [Hc|Hc]; [lia | done | rewrite Hc; lia ..].
  - done.
Qed.

Lemma sinkDown_swap_None el heap n :
  sinkDown_swap el heap n = None →
  ∀ i, 0 < i < length heap → parentOf i = n → (el.1 ≤ key heap i)%Z.
Proof.
  unfold sinkDown_swap.
  pose proof (children_of n) as Hch.
  destruct (Nat.ltb_spec ((n + 1) * 2 - 1) (length heap)) as [H1|H1];
    destruct (Nat.ltb_spec ((n + 1) * 2) (length heap)) as [H2|H2]; try lia.
  - destruct (key_lt heap _ H1) as (c1 & -> & K1).
    destruct (key_lt heap _ H2) as (c2 & -> & K2). simpl.
    destruct (Z.ltb_spec c1.1 el.1); simpl; rewrite Z.gtb_ltb;
      [destruct (Z.ltb_spec c2.1 c1.1) | destruct (Z.ltb_spec c2.1 el.1)];
      intros Hs i Hi Hp; try discriminate.
    destruct (Hch i) as [Hc|Hc]; [lia | done | rewrite Hc; lia ..].
  - destruct (key_lt heap _ H1) as (c1 & -> & K1).
    destruct (Z.ltb_spec c1.1 el.1); intros Hs i Hi Hp; try discriminate.
    destruct (Hch i) as [Hc|Hc]; [lia | done | rewrite Hc; lia ..].
  - intros _ i Hi Hp. destruct (Hch i) as [Hc|Hc]; lia.
Qed.


Lemma down_inv_exchange heap n el s x :
  heap !! n = Some el → heap !! s = Some x →
  n < s → parentOf s = n → (x.1 < el.1)%Z →
  (∀ i, 0 < i < length heap → parentOf i = n → (x.1 ≤ key heap i)%Z) →
  down_inv heap n →
  down_inv (<[s := el]> (<[n := x]> heap)) s.
Proof.
  intros Hel Hx Hns Hps Hlt Hmin [H1 H2].
  pose proof (key_Some _ _ _ Hel) as Kel. pose proof (key_Some _ _ _ Hx) as Kx.
  apply lookup_lt_Some in Hx as Hs.
  split; intros i; rewrite !length_insert; intros Hi;
    rewrite !(key_exchange _ _ _ _ _ _ Hx Hel);
    pose proof (parentOf_lt i) as Hpi;
    pose proof (H1 i) as H1i; pose proof (H2 i) as H2i;
    pose proof (Hmin i) as Hmi; pose proof (H2 s) as H2s;
    pose proof (parentOf_lt n) as Hpn.
  - intros Hne. repeat case_decide; subst; heap_arith.
  - intros Hp Hp0. repeat case_decide; subst; heap_arith.
Qed.

Lemma sinkDown_loop_ordered fuel el heap n :
  length heap ≤ n + fuel → heap !! n = Some el → down_inv heap n →
  heap_ordered (sinkDown_loop fuel el heap n).
Proof.
  revert heap n. induction fuel as [|fuel IH]; intros heap n Hfuel Hel Hinv.
  { apply lookup_lt_Some in Hel. lia. }
  simpl. destruct (sinkDown_swap el heap n) as [s|] eqn:Hswap.
  - apply sinkDown_swap_Some in Hswap as (Hs & Hps & Hlt & Hmin).
    destruct (key_lt heap s) as (x & Hx & Kx); [lia |]. rewrite Hx.
    rewrite Kx in Hlt, Hmin.
    apply IH; [rewrite !length_insert; lia | |
               by apply (down_inv_exchange heap n el s x); try lia].
    rewrite (lookup_exchange _ _ _ _ _ _ Hx Hel). by rewrite decide_True.
  - apply heap_ordered_key. intros i Hi. destruct Hinv as [H1 _].
    destruct (decide (parentOf i = n)) as [Hp|Hp]; [|by apply H1].
    rewrite Hp, (key_Some _ _ _ Hel). by eapply sinkDown_swap_None.
Qed.

(** The budget [length heap] of [_sinkDown] is enough: a larger one gives
    the same array. *)
Lemma sinkDown_loop_fuel fuel1 fuel2 el heap n :
  length heap ≤ n + fuel1 → length heap ≤ n + fuel2 →
  sinkDown_loop fuel1 el heap n = sinkDown_loop fuel2 el heap n.
Proof.
  revert fuel2 heap n.
  induction fuel1 as [|fuel1 IH]; intros [|fuel2] heap n H1 H2; simpl; try done.
  - destruct (sinkDown_swap el heap n) as [s|] eqn:Hswap; [|done].
    apply sinkDown_swap_Some in Hswap. lia.
  - destruct (sinkDown_swap el heap n) as [s|] eqn:Hswap; [|done].
    apply sinkDown_swap_Some in Hswap. lia.
  - destruct (sinkDown_swap el heap n) as [s|] eqn:Hswap; [|done].
    apply sinkDown_swap_Some in Hswap as (Hs & _).
    destruct (heap !! s) as [x|]; [|done].
    apply IH; rewrite !length_insert; lia.
Qed.

Lemma sinkDown_loop_perm fuel el heap n :
  heap !! n = Some el → sinkDown_loop fuel el heap n ≡ₚ heap.
Proof.
  revert heap n. induction fuel as [|fuel IH]; intros heap n Hel; [done |].
  simpl. destruct (sinkDown_swap el heap n) as [s|] eqn:Hswap; [|done].
  destruct (heap !! s) as [x|] eqn:Hx; [|done].
  rewrite IH; [by apply exchange_perm |].
  rewrite (lookup_exchange _ _ _ _ _ _ Hx Hel). by rewrite decide_True.
Qed.

(** The root of an ordered heap is a minimum. *)
Lemma heap_ordered_root heap top :
  heap_ordered heap → heap !! 0 = Some top →
  ∀ i y, heap !! i = Some y → (top.1 ≤ y.1)%Z.
Proof.
  intros Hord Htop i. induction (lt_wf i) as [i _ IH]. intros y Hy.
  destruct (decide (i = 0)) as [->|Hi]; [by simplify_eq |].
  pose proof (parentOf_lt i) as Hp. apply lookup_lt_Some in Hy as Hlen.
  destruct (lookup_lt_is_Some_2 heap (parentOf i)) as [x Hx]; [lia |].
  trans x.1; [apply (IH (parentOf i)); [lia | done] |].
  apply (Hord i); [lia | done ..].
Qed.

Lemma pop_nil : pop (@nil (Z * A)) = (None, []).
Proof. done. Qed.

Lemma pop_None heap heap' : pop heap = (None, heap') → heap = [] ∧ heap' = [].
Proof.
  unfold pop. destruct heap as [|top tl]; simpl; [by intros [= <-] |].
  destruct (last (top :: tl)); [destruct (0 <? _) |]; done.
Qed.

Lemma pop_singleton top : pop [top] = (Some top, []).
Proof. done. Qed.

Lemma pop_snoc top m e :
  pop (top :: m ++ [e]) = (Some top, sinkDown_loop (S (length m)) e (e :: m) 0).
Proof.
  unfold pop. change (top :: m ++ [e]) with ((top :: m) ++ [e]).
  rewrite last_snoc, removelast_last. done.
Qed.

Lemma pop_perm heap top heap' :
  pop heap = (Some top, heap') → heap ≡ₚ top :: heap'.
Proof.
  intros Hpop. destruct heap as [|t tl]; [done |].
  destruct (decide (tl = [])) as [->|Hne]; [rewrite pop_singleton in Hpop; by simplify_eq |].
  destruct (exists_last Hne) as (m & e & ->).
  rewrite pop_snoc in Hpop. simplify_eq.
  rewrite sinkDown_loop_perm by done. by rewrite Permutation_app_comm.
Qed.

Lemma pop_Some heap top heap' :
  heap_ordered heap → pop heap = (Some top, heap') →
  heap ≡ₚ top :: heap' ∧ (∀ y, y ∈ heap → (top.1 ≤ y.1)%Z) ∧ heap_ordered heap'.
Proof.
  intros Hord Hpop.
  assert (heap !! 0 = Some top) as Htop.
  { unfold pop in Hpop. destruct (heap !! 0); [|done].
    destruct (last heap); [destruct (0 <? _) |]; by simplify_eq. }
  split; [|split].
  - by apply pop_perm.
  - intros y [i Hy]%list_elem_of_lookup. by eapply heap_ordered_root.
  - destruct heap as [|t tl]; [done |]. simplify_eq/=.
    destruct (decide (tl = [])) as [->|Hne].
    { rewrite pop_singleton in Hpop. simplify_eq. apply heap_ordered_nil. }
    destruct (exists_last Hne) as (m & e & ->).
    rewrite pop_snoc in Hpop. simplify_eq.
    apply sinkDown_loop_ordered; [simpl; lia | done |].
    pose proof (proj1 (heap_ordered_key _) Hord) as Hkey.
    split; [|lia]. simpl. intros i Hi Hp.
    pose proof (parentOf_lt i). 
    destruct i as [|i]; [lia |]. destruct (parentOf (S i)) as [|j] eqn:Hj; [done |].
    specialize (Hkey (S i)). rewrite Hj in Hkey. unfold key in *. simpl in *.
    rewrite length_app in Hkey. simpl in Hkey.
    rewrite !lookup_app_l in Hkey by lia. apply Hkey. lia.
Qed.

Lemma pop_is_Some heap :
  heap ≠ [] → ∃ top heap', pop heap = (Some top, heap').
Proof.
  intros Hne. destruct heap as [|t tl]; [done |].
  destruct (decide (tl = [])) as [->|Htl]; [by eexists _, _ |].
  destruct (exists_last Htl) as (m & e & ->). rewrite pop_snoc. by eexists _, _.
Qed.
End MinHeapTheory.

(** ** Part IV: the search *)

Section DijkstraTheory.
Variable graph : Graph.
Variable src : string.
Hypothesis Hclosed : endpoints_closed graph.
Hypothesis Hnonneg : costs_nonneg graph.

Implicit Types (st : SearchState) (u v t : string) (e : Edge)
  (p : list string) (c d x y : Z).



Lemma chain_walk pr p v c : chain graph src pr p v c → walk graph src p v c.
Proof. induction 1; econstructor; eauto. Qed.

Lemma chain_last pr p v c : chain graph src pr p v c → v ∈ p.
Proof. destruct 1; set_solver. Qed.

Lemma chain_insert pr p v c t o :
  chain graph src pr p v c → t ∉ p → chain graph src (<[t := o]> pr) p v c.
Proof.
  induction 1 as [Hs|p u c e Hch IH He Hpr]; intros Hnotin.
  - constructor. rewrite lookup_insert_ne; [done | set_solver].
  - apply (chain_step graph src _ p u); [apply IH; set_solver | done |].
    rewrite lookup_insert_ne; [done | set_solver].
Qed.

Lemma walk_cost_nonneg p v c : walk graph src p v c → (0 ≤ c)%Z.
Proof.
  induction 1 as [|p u c e _ IH He]; [done |].
  specialize (Hnonneg _ _ He). lia.
Qed.


(** Every walk from the source either ends in a node whose tentative
    distance is at most the cost of the walk, or passes over a queued
    entry that is. *)
Lemma frontier u st p t c :
  Inv graph src u [] st → walk graph src p t c →
  (∃ y, dist st !! t = Some (Num y) ∧ (y ≤ c)%Z) ∨
  (∃ x w, (x, w) ∈ pq st ∧ (x ≤ c)%Z).
Proof.
  intros HI. induction 1 as [|p v c e Hw IH He].
  - left. apply (inv_src HI).
  - pose proof (Hnonneg _ _ He) as Hc.
    destruct IH as [(y & Hy & Hle)|(x & w & Hin & Hle)].
    + destruct (inv_closed HI _ _ _ Hy He) as [Hin|[[_ Hin]|(z & Hz & Hle')]].
      * right. exists y, v. split; [done | lia].
      * by apply elem_of_nil in Hin.
      * left. exists z. split; [done | lia].
    + right. exists x, w. split; [done | lia].
Qed.

(** A fresh minimum of the queue carries the shortest distance. *)
Lemma popped_minimal u0 st d u p c :
  Inv graph src u0 [] st → (d, u) ∈ pq st → dist st !! u = Some (Num d) →
  (∀ it, it ∈ pq st → (d ≤ it.1)%Z) →
  walk graph src p u c → (d ≤ c)%Z.
Proof.
  intros HI Hin Hd Hmin Hw.
  destruct (frontier _ _ _ _ _ HI Hw) as [(y & Hy & Hle)|(x & w & Hxw & Hle)].
  - by simplify_eq.
  - specialize (Hmin _ Hxw). simpl in Hmin. lia.
Qed.

Lemma dom_insert_present {V} (m : gmap string V) k (o : V) (D : gset string) :
  dom m = D → k ∈ D → dom (<[k := o]> m) = D.
Proof.
  intros <- Hk. rewrite dom_insert_L. apply subseteq_union_1_L.
  by apply singleton_subseteq_l.
Qed.

Lemma gt_dist_true d o :
  gt_dist d o = true → ∃ y, o = Some (Num y) ∧ (y < d)%Z.
Proof. destruct o as [[y|]|]; simpl; try done. intros ?%Z.ltb_lt. eauto. Qed.

Lemma lt_dist_true alt o :
  lt_dist alt o = true →
  o = Some Infinity ∨ ∃ y, o = Some (Num y) ∧ (alt < y)%Z.
Proof. destruct o as [[y|]|]; simpl; try done; eauto. intros ?%Z.ltb_lt. eauto. Qed.

Lemma lt_dist_false alt o :
  lt_dist alt o = false →
  o = None ∨ ∃ y, o = Some (Num y) ∧ (y ≤ alt)%Z.
Proof. destruct o as [[y|]|]; simpl; try done; eauto. intros ?%Z.ltb_ge. eauto. Qed.

Lemma elem_of_push (it z : Z * string) (heap : list (Z * string)) :
  z ∈ push it heap ↔ z = it ∨ z ∈ heap.
Proof. rewrite push_perm. apply elem_of_cons. Qed.

(** Discarding a stale entry. *)
Lemma inv_pop_stale u0 st d u pq' :
  Inv graph src u0 [] st → pq st ≡ₚ (d, u) :: pq' → heap_ordered pq' →
  gt_dist d (dist st !! u) = true →
  let st1 := {| dist := dist st; prev := prev st; pq := pq' |} in
  Inv graph src u0 [] st1 ∧ ∀ t, final st1 t ↔ final st t.
Proof.
  intros HI Hperm Hord (y & Hy & Hlt)%gt_dist_true st1.
  assert (∀ z, z ∈ pq st ↔ z = (d, u) ∨ z ∈ pq') as Hmem.
  { intros z. rewrite Hperm. apply elem_of_cons. }
  assert (∀ t, final st1 t ↔ final st t) as Hfin.
  { intros t. unfold final. simpl. split; intros (x & Hx & Hnin); exists x; split; try done.
    - rewrite Hmem. intros [[= -> ->]|?]; [|done]. simplify_eq. lia.
    - rewrite Hmem in Hnin. tauto. }
  split; [|done]. destruct HI. split; simpl; try done.
  - pose proof inv_nodup0 as Hnd. rewrite Hperm in Hnd. by apply NoDup_cons in Hnd as [_ ?].
  - intros d0 v Hin. apply inv_pq0. rewrite Hmem. by right.
  - intros v x Hv. destruct (inv_chain0 v x Hv) as (p & Hp & Hnd & Hf).
    exists p. split; [done |]. split; [done |]. intros t Ht Hne. apply Hfin. by apply Hf.
  - intros v x e Hv He. destruct (inv_closed0 v x e Hv He) as [Hin|[?|?]]; [|by auto ..].
    apply Hmem in Hin as [[= -> ->]|Hin]; [|by left]. simplify_eq. lia.
  - intros v x p c Hv Hnin. apply inv_final0; [done |].
    rewrite Hmem. intros [[= -> ->]|?]; [|done]. simplify_eq. lia.
Qed.

(** Taking a fresh entry: its node becomes final, with all its edges
    still to be relaxed. *)
Lemma inv_pop_fresh u0 st d u pq' :
  Inv graph src u0 [] st → pq st ≡ₚ (d, u) :: pq' → heap_ordered pq' →
  (∀ it, it ∈ pq st → (d ≤ it.1)%Z) →
  gt_dist d (dist st !! u) = false →
  let st1 := {| dist := dist st; prev := prev st; pq := pq' |} in
  dist st !! u = Some (Num d) ∧ ((d, u) ∉ pq') ∧
  (∀ p c, walk graph src p u c → (d ≤ c)%Z) ∧
  (∀ t, final st1 t ↔ (t = u ∨ final st t)) ∧
  ∀ edges, graph !! u = Some edges → Inv graph src u edges st1.
Proof.
  intros HI Hperm Hord Hmin Hfresh st1.
  assert (∀ z, z ∈ pq st ↔ z = (d, u) ∨ z ∈ pq') as Hmem.
  { intros z. rewrite Hperm. apply elem_of_cons. }
  assert ((d, u) ∈ pq st) as Hin by (apply Hmem; by left).
  assert (dist st !! u = Some (Num d)) as Hd.
  { destruct (inv_pq HI _ _ Hin) as (x & Hx & Hle).
    rewrite Hx in Hfresh. simpl in Hfresh. apply Z.ltb_ge in Hfresh.
    rewrite Hx. do 2 f_equal. lia. }
  assert ((d, u) ∉ pq') as Hnin.
  { pose proof (inv_nodup HI) as Hnd. rewrite Hperm in Hnd.
    by apply NoDup_cons in Hnd as [? _]. }
  assert (∀ p c, walk graph src p u c → (d ≤ c)%Z) as Hbest.
  { intros p c. by eapply popped_minimal. }
  assert (∀ t, final st1 t ↔ (t = u ∨ final st t)) as Hfin.
  { intros t. unfold final. simpl. split.
    - intros (x & Hx & Hx'). destruct (decide ((x, t) = (d, u))) as [[= -> ->]|Hne]; [by left |].
      right. exists x. split; [done |]. rewrite Hmem. tauto.
    - intros [->|(x & Hx & Hx')]; [by exists d |].
      exists x. split; [done |]. rewrite Hmem in Hx'. tauto. }
  do 4 (split; [done |]). intros edges Hedges.
  destruct HI. split; simpl; try done.
  - pose proof inv_nodup0 as Hnd. rewrite Hperm in Hnd. by apply NoDup_cons in Hnd as [_ ?].
  - intros d0 v Hv. apply inv_pq0. rewrite Hmem. by right.
  - intros v x Hv. destruct (inv_chain0 v x Hv) as (p & Hp & Hnd & Hf).
    exists p. split; [done |]. split; [done |]. intros t Ht Hne. apply Hfin. right. by apply Hf.
  - intros v x e Hv He. destruct (inv_closed0 v x e Hv He) as [Hv'|[[_ []%elem_of_nil]|?]]; [|by auto].
    apply Hmem in Hv' as [[= -> ->]|Hv']; [|by left].
    right. left. split; [done |]. destruct He as (es & Hes & He). by simplify_eq.
  - intros v x p c Hv Hv' Hw.
    destruct (decide ((x, v) = (d, u))) as [[= -> ->]|Hne]; [by eapply Hbest |].
    eapply inv_final0; [done | | done]. rewrite Hmem. tauto.
Qed.

(** One round of the [for] loop. *)
Lemma inv_relax u d e rest st :
  Inv graph src u (e :: rest) st → dist st !! u = Some (Num d) → (d, u) ∉ pq st →
  has_edge graph u e →
  let st' := relax d u st e in
  Inv graph src u rest st' ∧ dist st' !! u = Some (Num d) ∧ ((d, u) ∉ pq st') ∧
  (∀ t, final st' t ↔ final st t) ∧
  length (pq st') ≤ S (length (pq st)).
Proof.
  intros HI Hd Hnin He. unfold relax.
  assert (is_Some (dist st !! to e)) as [dv Hdv].
  { apply elem_of_dom. rewrite (inv_dom_dist HI). apply elem_of_dom. by eapply Hclosed. }
  pose proof (Hnonneg _ _ He) as Hcost.
  destruct (lt_dist (d + cost e) (dist st !! to e)) eqn:Hlt; simpl.
  - (* the tentative distance of [to e] decreases *)
    assert (∀ y, dist st !! to e = Some (Num y) → (d + cost e < y)%Z) as Hless.
    { intros y Hy. apply lt_dist_true in Hlt as [?|(? & ? & ?)]; simplify_eq. lia. }
    assert (to e ≠ u) as Hne.
    { intros Heq. rewrite Heq in Hless. specialize (Hless _ Hd). lia. }
    destruct (inv_chain HI _ _ Hd) as (pu & Hpu & Hndu & Hfu).
    assert (walk graph src (pu ++ [to e]) (to e) (d + cost e)) as Hwalk.
    { apply (walk_step _ _ pu u); [by eapply chain_walk | done]. }
    assert (¬ final st (to e)) as Hopen.
    { intros (x & Hx & Hx'). specialize (Hless _ Hx).
      pose proof (inv_final HI _ _ _ _ Hx Hx' Hwalk). lia. }
    assert (final st u) as Hufin by (by exists d).
    assert (∀ p w x, chain graph src (prev st) p w x →
             (∀ t, t ∈ p → t ≠ w → final st t) → w ≠ to e → to e ∉ p) as Hfresh.
    { intros p w x _ Hf Hw Hin. apply Hopen. apply Hf; [done | congruence]. }
    assert ((d + cost e, to e)%Z ∉ pq st) as Hnew.
    { intros Hin. destruct (inv_pq HI _ _ Hin) as (x & Hx & Hle).
      specialize (Hless _ Hx). lia. }
    assert (∀ t, final {| dist := <[to e:=Num (d + cost e)]> (dist st);
                         prev := <[to e:=Some u]> (prev st);
                         pq := push ((d + cost e)%Z, to e) (pq st) |} t ↔ final st t) as Hfin.
    { intros t. unfold final. simpl. destruct (decide (t = to e)) as [->|Ht].
      - split; [|by intros ?; exfalso; apply Hopen].
        intros (x & Hx & Hx'). rewrite lookup_insert_eq in Hx. simplify_eq.
        exfalso. apply Hx'. apply elem_of_push. by left.
      - rewrite lookup_insert_ne by done.
        split; intros (x & Hx & Hx'); exists x; (split; [done |]).
        + intros Hin. apply Hx'. apply elem_of_push. by right.
        + rewrite elem_of_push. intros [[= -> ->]|?]; done. }
    split; [|split; [|split; [|split]]].
    + destruct HI. split; simpl.
      * by apply push_ordered.
      * rewrite push_perm. by apply NoDup_cons.
      * apply dom_insert_present; [done |]. apply elem_of_dom. by eapply Hclosed.
      * apply dom_insert_present; [done |]. apply elem_of_dom. by eapply Hclosed.
      * destruct inv_src0 as (y & Hy & Hle).
        destruct (decide (src = to e)) as [Heq|Hsne].
        -- rewrite Heq in *. rewrite lookup_insert_eq. eexists; split; [done |].
           specialize (Hless _ Hy). lia.
        -- rewrite lookup_insert_ne by done. eauto.
      * intros d0 v. rewrite elem_of_push. intros [[= -> ->]|Hin].
        -- rewrite lookup_insert_eq. eexists; split; [done | lia].
        -- destruct (inv_pq0 _ _ Hin) as (x & Hx & Hle).
           destruct (decide (v = to e)) as [->|Hv].
           ++ rewrite lookup_insert_eq. eexists; split; [done |].
              specialize (Hless _ Hx). lia.
           ++ rewrite lookup_insert_ne by done. eauto.
      * intros v x Hv. destruct (decide (v = to e)) as [->|Hvne].
        -- rewrite lookup_insert_eq in Hv. simplify_eq.
           assert (to e ∉ pu) as Hnotin by (by eapply Hfresh).
           exists (pu ++ [to e]). split; [|split].
           ++ apply (chain_step graph src _ pu u); [by apply chain_insert | done |].
              by rewrite lookup_insert_eq.
           ++ apply NoDup_app. split; [done |]. split; [|apply NoDup_singleton].
              intros t Ht ->%list_elem_of_singleton. done.
           ++ intros t [Ht| ->%list_elem_of_singleton]%elem_of_app Htne; [|done].
              apply Hfin. destruct (decide (t = u)) as [->|Htu]; [done | by apply Hfu].
        -- rewrite lookup_insert_ne in Hv by done.
           destruct (inv_chain0 v x Hv) as (p & Hp & Hnd & Hf).
           assert (to e ∉ p) as Hnotin by (by eapply Hfresh).
           exists p. split; [by apply chain_insert |]. split; [done |].
           intros t Ht Htne. apply Hfin. by apply Hf.
      * intros v x e0 Hv He0. destruct (decide (v = to e)) as [->|Hvne].
        { rewrite lookup_insert_eq in Hv. simplify_eq. left. apply elem_of_push. by left. }
        rewrite lookup_insert_ne in Hv by done.
        destruct (inv_closed0 v x e0 Hv He0) as [Hin|[[-> Hin]|(y & Hy & Hle)]].
        -- left. apply elem_of_push. by right.
        -- apply elem_of_cons in Hin as [->|Hin]; [|by auto].
           right. right. rewrite lookup_insert_eq. eexists; split; [done |].
           simplify_eq. lia.
        -- right. right. destruct (decide (to e0 = to e)) as [Heq|Hto].
           ++ rewrite Heq in *. rewrite lookup_insert_eq. eexists; split; [done |].
              specialize (Hless _ Hy). lia.
           ++ rewrite lookup_insert_ne by done. eauto.
      * intros v x p c Hv Hv' Hw. destruct (decide (v = to e)) as [->|Hvne].
        { rewrite lookup_insert_eq in Hv. simplify_eq.
          exfalso. apply Hv'. apply elem_of_push. by left. }
        rewrite lookup_insert_ne in Hv by done.
        eapply inv_final0; [done | | done]. intros Hin. apply Hv'.
        apply elem_of_push. by right.
    + by rewrite lookup_insert_ne.
    + rewrite elem_of_push. intros [[= ? ?]|?]; done.
    + done.
    + rewrite push_perm. simpl. lia.
  - (* no change *)
    split; [|by auto].
    apply lt_dist_false in Hlt as [Hnone|(y & Hy & Hle)]; [congruence |].
    destruct HI. split; try done.
    intros v x e0 Hv He0.
    destruct (inv_closed0 v x e0 Hv He0) as [Hin|[[-> Hin]|?]]; [by auto | | by auto].
    apply elem_of_cons in Hin as [->|Hin]; [|by auto].
    right. right. exists y. split; [done |]. simplify_eq. lia.
Qed.

Lemma inv_no_pending u u' st : Inv graph src u [] st → Inv graph src u' [] st.
Proof.
  intros []. split; try done. intros v x e Hv He.
  destruct (inv_closed0 v x e Hv He) as [?|[[_ []%elem_of_nil]|?]]; auto.
Qed.

(** The whole [for] loop. *)
Lemma inv_relax_all u d rest st :
  Inv graph src u rest st → dist st !! u = Some (Num d) → (d, u) ∉ pq st →
  (∀ e, e ∈ rest → has_edge graph u e) →
  let st' := fold_left (relax d u) rest st in
  Inv graph src u [] st' ∧ (∀ t, final st' t ↔ final st t) ∧
  length (pq st') ≤ length (pq st) + length rest.
Proof.
  revert st. induction rest as [|e rest IH]; intros st HI Hd Hnin Hedges; simpl.
  { split; [done |]. split; [done | lia]. }
  destruct (inv_relax u d e rest st HI Hd Hnin) as (HI' & Hd' & Hnin' & Hfin & Hlen).
  { apply Hedges. by left. }
  destruct (IH _ HI' Hd' Hnin') as (HI2 & Hfin2 & Hlen2).
  { intros e0 He0. apply Hedges. by right. }
  split; [done |]. split; [|lia].
  intros t. by rewrite Hfin2.
Qed.


Lemma finalb_spec st v : finalb st v = true ↔ final st v.
Proof.
  unfold finalb, final. destruct (dist st !! v) as [[x|]|].
  - rewrite bool_decide_eq_true. split; [by exists x | by intros (? & [= <-] & ?)].
  - split; [done | by intros (? & [=] & _)].
  - split; [done | by intros (? & [=] & _)].
Qed.

Lemma finalb_ext st st' v :
  (final st' v ↔ final st v) → finalb st' v = finalb st v.
Proof.
  rewrite <-!finalb_spec. destruct (finalb st' v), (finalb st v); try done.
  - intros [H _]. by rewrite H.
  - intros [_ H]. by rewrite H.
Qed.

Lemma sum_list_with_ext {B} (f g : B → nat) (l : list B) :
  (∀ b, b ∈ l → f b = g b) → sum_list_with f l = sum_list_with g l.
Proof.
  induction l as [|b l IH]; intros Hfg; simpl; [done |].
  rewrite Hfg by (by left). rewrite IH; [done |]. intros b' Hb'. apply Hfg. by right.
Qed.

Lemma potential_ext st st' :
  (∀ t, final st' t ↔ final st t) → potential graph st' = potential graph st.
Proof.
  intros Hfin. apply sum_list_with_ext. intros [v es] _. unfold weight. simpl.
  by rewrite (finalb_ext st st' v (Hfin v)).
Qed.

Lemma potential_settle st st' u edges :
  graph !! u = Some edges → ¬ final st u →
  (∀ t, final st' t ↔ (t = u ∨ final st t)) →
  potential graph st' + length edges = potential graph st.
Proof.
  intros Hu Hopen Hfin. unfold potential.
  rewrite <-(map_to_list_delete graph u edges Hu). simpl.
  unfold weight at 1 3. simpl.
  assert (finalb st' u = true) as -> by (apply finalb_spec, Hfin; by left).
  assert (finalb st u = false) as ->.
  { destruct (finalb st u) eqn:Hb; [|done]. by apply finalb_spec in Hb. }
  rewrite (sum_list_with_ext (weight st') (weight st)); [lia |].
  intros [v es] [Hne _]%elem_of_map_to_list%lookup_delete_Some.
  unfold weight. simpl. rewrite (finalb_ext st st' v); [done |].
  rewrite Hfin. split; [by intros [?|?] | by right].
Qed.


Lemma search_loop_terminates dst fuel st u0 :
  Inv graph src u0 [] st → length (pq st) + potential graph st < fuel →
  ∃ st' u rest,
    search_loop fuel graph dst st = Some (LoopBreak st') ∧
    Inv graph src u rest st' ∧ settled graph src dst st'.
Proof.
  revert st u0. induction fuel as [|fuel IH]; intros st u0 HI Hfuel; [lia |].
  simpl. destruct (pop (pq st)) as [[[d u]|] pq'] eqn:Hpop.
  - destruct (pop_Some _ _ _ (inv_ordered HI) Hpop) as (Hperm & Hmin & Hord).
    pose proof (Permutation_length Hperm) as Hlen. simpl in Hlen.
    destruct (gt_dist d (dist st !! u)) eqn:Hgt.
    + destruct (inv_pop_stale u0 st d u pq' HI Hperm Hord Hgt) as [HI1 Hfin].
      apply (IH _ u0 HI1). simpl. rewrite (potential_ext _ _ Hfin). lia.
    + destruct (inv_pop_fresh u0 st d u pq' HI Hperm Hord Hmin Hgt)
        as (Hd & Hnin & Hbest & Hfin & HI1).
      assert (is_Some (graph !! u)) as [edges Hedges].
      { apply elem_of_dom. rewrite <-(inv_dom_dist HI). apply elem_of_dom. eauto. }
      destruct (String.eqb_spec u dst) as [->|Hne].
      * eexists _, dst, edges. split; [done |]. split; [by apply HI1 |].
        intros p c Hw. exists d. split; [done | by eapply Hbest].
      * rewrite Hedges.
        destruct (inv_relax_all u d edges _ (HI1 _ Hedges) Hd Hnin)
          as (HI2 & Hfin2 & Hlen2).
        { intros e He. by exists edges. }
        apply (IH _ u HI2). rewrite (potential_ext _ _ Hfin2).
        assert (¬ final st u) as Hopen.
        { intros (x & Hx & Hx'). simplify_eq. apply Hx'. rewrite Hperm. by left. }
        pose proof (potential_settle st _ u edges Hedges Hopen Hfin).
        simpl in *. lia.
  - apply pop_None in Hpop as [Hnil ->].
    eexists st, u0, []. split; [done |]. split; [done |].
    intros p c Hw.
    destruct (frontier _ _ _ _ _ HI Hw) as [?|(x & w & Hin & _)]; [done |].
    rewrite Hnil in Hin. by apply elem_of_nil in Hin.
Qed.

Lemma init_pq : pq (init_state graph src) = [(0%Z, src)].
Proof. done. Qed.

Lemma init_not_final t : ¬ final (init_state graph src) t.
Proof.
  intros (x & Hx & Hx'). rewrite init_pq in Hx'. simpl in Hx.
  destruct (decide (t = src)) as [->|Hne].
  - rewrite lookup_insert_eq in Hx. simplify_eq. apply Hx'. by left.
  - rewrite lookup_insert_ne, lookup_fmap in Hx by done.
    by destruct (graph !! t).
Qed.

Lemma init_inv :
  is_Some (graph !! src) → Inv graph src src [] (init_state graph src).
Proof.
  intros [es Hes].
  assert (∀ v x, dist (init_state graph src) !! v = Some (Num x) → v = src ∧ x = 0%Z) as Hfin.
  { intros v x. simpl. destruct (decide (v = src)) as [->|Hne].
    - rewrite lookup_insert_eq. by intros [= <-].
    - rewrite lookup_insert_ne, lookup_fmap by done. by destruct (graph !! v). }
  split.
  - rewrite init_pq. intros i Hi x y _ Hy. destruct i; [lia | done].
  - rewrite init_pq. apply NoDup_singleton.
  - simpl. apply dom_insert_present; [by rewrite dom_fmap_L | by apply elem_of_dom].
  - simpl. by rewrite dom_fmap_L.
  - exists 0%Z. simpl. by rewrite lookup_insert_eq.
  - intros d v. rewrite init_pq. intros [= -> ->]%list_elem_of_singleton.
    exists 0%Z. simpl. by rewrite lookup_insert_eq.
  - intros v x [-> ->]%Hfin. exists [src]. split; [|split].
    + constructor. simpl. by rewrite lookup_fmap, Hes.
    + apply NoDup_singleton.
    + by intros t ->%list_elem_of_singleton.
  - intros v x e [-> ->]%Hfin _. left. rewrite init_pq. by left.
  - intros v x p c [-> ->]%Hfin Hnin. exfalso. apply Hnin. rewrite init_pq. by left.
Qed.

Lemma init_potential : potential graph (init_state graph src) = edge_count graph.
Proof.
  apply sum_list_with_ext. intros [v es] _. unfold weight. simpl.
  destruct (finalb (init_state graph src) v) eqn:Hb; [|done].
  apply finalb_spec in Hb. by apply init_not_final in Hb.
Qed.

Lemma search_loop_init dst fuel :
  is_Some (graph !! src) → edge_count graph + 2 ≤ fuel →
  ∃ st u rest,
    search_loop fuel graph dst (init_state graph src) = Some (LoopBreak st) ∧
    Inv graph src u rest st ∧ settled graph src dst st.
Proof.
  intros Hsrc Hfuel. apply (search_loop_terminates dst fuel _ src (init_inv Hsrc)).
  rewrite init_potential, init_pq. simpl. lia.
Qed.

(** Reading the path back along the [prev] links. *)
Lemma build_path_chain pr p v c fuel acc :
  chain graph src pr p v c → (∀ t, t ∈ p → t ≠ ""%string) → length p ≤ fuel →
  build_path fuel pr (Some v) acc = Some (p ++ acc).
Proof.
  intros Hch. revert fuel acc.
  induction Hch as [Hs|p u c e Hch IH He Hpr]; intros fuel acc Hne Hfuel.
  - destruct fuel as [|fuel]; [simpl in Hfuel; lia |]. simpl.
    destruct (String.eqb_spec src "") as [Heq|_]; [exfalso; apply (Hne src); [by left | done] |].
    rewrite Hs. simpl. by destruct fuel.
  - rewrite length_app in Hfuel. simpl in Hfuel.
    destruct fuel as [|fuel]; [lia |]. simpl.
    destruct (String.eqb_spec (to e) "") as [Heq|_].
    { exfalso. apply (Hne (to e)); [|done]. apply elem_of_app. right. by left. }
    rewrite Hpr. simpl. rewrite IH; [by rewrite <-app_assoc | | lia].
    intros t Ht. apply Hne. apply elem_of_app. by left.
Qed.

Lemma build_path_total pr p v c fuel acc :
  chain graph src pr p v c → length p ≤ fuel →
  is_Some (build_path fuel pr (Some v) acc).
Proof.
  intros Hch. revert fuel acc.
  induction Hch as [Hs|p u c e Hch IH He Hpr]; intros fuel acc Hfuel.
  - destruct fuel as [|fuel]; [simpl in Hfuel; lia |]. simpl.
    destruct (String.eqb src ""); [done |].
    rewrite Hs. simpl. by destruct fuel.
  - rewrite length_app in Hfuel. simpl in Hfuel.
    destruct fuel as [|fuel]; [lia |]. simpl.
    destruct (String.eqb (to e) ""); [done |].
    rewrite Hpr. simpl. apply IH. lia.
Qed.

Lemma chain_dom pr p v c t : chain graph src pr p v c → t ∈ p → t ∈ dom pr.
Proof.
  induction 1 as [Hs|p u c e Hch IH He Hpr].
  - intros ->%list_elem_of_singleton. by apply elem_of_dom.
  - intros [Ht| ->%list_elem_of_singleton]%elem_of_app; [by apply IH |].
    by apply elem_of_dom.
Qed.

Lemma chain_length pr p v c :
  chain graph src pr p v c → NoDup p → dom pr = dom graph → length p ≤ size graph.
Proof.
  intros Hch Hnd Hdom. rewrite <-size_dom, <-Hdom.
  unfold size, set_size. simpl. apply submseteq_length, NoDup_submseteq; [done |].
  intros t Ht. apply elem_of_elements. by eapply chain_dom.
Qed.

(** The cost of a chain of [prev] links, against the bound on the costs. *)
Lemma chain_cost_bound pr p v c :
  costs_exact graph → chain graph src pr p v c →
  (c * Z.of_nat (size graph) ≤ (Z.of_nat (length p) - 1) * 2 ^ 53)%Z.
Proof.
  intros Hexact. induction 1 as [Hs|p u c e Hch IH He Hpr]; [simpl; lia |].
  specialize (Hexact _ _ He). rewrite length_app. simpl length. lia.
Qed.

(** Under [costs_exact] every sum [d + edge.cost] that the search forms is
    a sum of two integers between 0 and 2^53 that stays within 2^53: the
    binary64 addition of the program gives the same number. *)
Lemma relax_sums_exact u0 rest st u d e :
  costs_exact graph → Inv graph src u0 rest st →
  dist st !! u = Some (Num d) → has_edge graph u e →
  (0 ≤ d ≤ 2 ^ 53 ∧ 0 ≤ cost e ≤ 2 ^ 53 ∧ 0 ≤ d + cost e ≤ 2 ^ 53)%Z.
Proof.
  intros Hexact HI Hd He.
  destruct (inv_chain HI _ _ Hd) as (p & Hp & Hnd & _).
  pose proof (chain_length _ _ _ _ Hp Hnd (inv_dom_prev HI)) as Hlen.
  pose proof (chain_cost_bound _ _ _ _ Hexact Hp) as Hcost.
  pose proof (walk_cost_nonneg _ _ _ (chain_walk _ _ _ _ Hp)) as Hd0.
  pose proof (Hnonneg _ _ He) as Hc0. specialize (Hexact _ _ He).
  assert (0 < length p) as Hpos by (destruct Hp; [simpl; lia | rewrite length_app; simpl; lia]).
  nia.
Qed.

(** With both endpoints in the graph and no empty identifier, the result
    is the one the specification promises. *)
Lemma dijkstra_fuel_present dst fuel :
  is_Some (graph !! src) → is_Some (graph !! dst) → graph !! ""%string = None →
  edge_count graph + size graph + 2 ≤ fuel →
  shortest_path_result graph src dst (dijkstra_fuel fuel graph src dst).
Proof.
  intros Hsrc Hdst Hempty Hfuel.
  destruct (search_loop_init dst fuel Hsrc) as (st & u & rest & Hloop & HI & Hset); [lia |].
  unfold dijkstra_fuel. rewrite Hloop.
  assert (is_Some (dist st !! dst)) as [dv Hdv].
  { apply elem_of_dom. rewrite (inv_dom_dist HI). by apply elem_of_dom. }
  assert (∀ y, dv = Num y →
    ∃ p, build_path fuel (prev st) (Some dst) [] = Some p ∧ walk graph src p dst y) as Hpath.
  { intros y ->. destruct (inv_chain HI _ _ Hdv) as (p & Hp & Hnd & _).
    exists p. split; [|by eapply chain_walk].
    rewrite (build_path_chain _ p dst y); [by rewrite app_nil_r | done | |].
    - intros t Ht ->. eapply chain_dom in Ht; [|done].
      rewrite (inv_dom_prev HI) in Ht. apply elem_of_dom in Ht as [? ?]. congruence.
    - pose proof (chain_length _ _ _ _ Hp Hnd (inv_dom_prev HI)). lia. }
  rewrite Hdv. split.
  - intros Hunreach. destruct dv as [y|]; [|done].
    destruct (Hpath y eq_refl) as (p & _ & Hw). exfalso. apply Hunreach. by exists p, y.
  - intros (p0 & c0 & Hw0). destruct (Hset _ _ Hw0) as (y & Hy & _).
    rewrite Hdv in Hy. simplify_eq. simpl.
    destruct (Hpath y eq_refl) as (p & -> & Hw).
    exists p, y. split; [done |]. split; [done |].
    intros p' d' Hw'. destruct (Hset _ _ Hw') as (y' & Hy' & Hle). by simplify_eq.
Qed.

(** With the destination missing from the graph the loop runs until the
    queue is empty, [dist[dst]] is [undefined], and a route object with
    the lone node [dst] is returned. *)
Lemma dijkstra_fuel_dst_absent dst fuel :
  is_Some (graph !! src) → graph !! dst = None →
  edge_count graph + size graph + 2 ≤ fuel →
  dijkstra_fuel fuel graph src dst =
    Some (Found {| path := if String.eqb dst "" then [] else [dst];
                   distance := None |}).
Proof.
  intros Hsrc Hdst Hfuel.
  destruct (search_loop_init dst fuel Hsrc) as (st & u & rest & Hloop & HI & Hset); [lia |].
  unfold dijkstra_fuel. rewrite Hloop.
  assert (dist st !! dst = None) as ->.
  { apply not_elem_of_dom. rewrite (inv_dom_dist HI). by apply not_elem_of_dom. }
  assert (prev st !! dst = None) as Hprev.
  { apply not_elem_of_dom. rewrite (inv_dom_prev HI). by apply not_elem_of_dom. }
  simpl. destruct fuel as [|fuel]; [lia |]. simpl.
  destruct (String.eqb dst ""); [done |]. rewrite Hprev. simpl. by destruct fuel.
Qed.

Lemma dijkstra_fuel_total dst fuel :
  is_Some (graph !! src) → edge_count graph + size graph + 2 ≤ fuel →
  is_Some (dijkstra_fuel fuel graph src dst).
Proof.
  intros Hsrc Hfuel.
  destruct (graph !! dst) as [es|] eqn:Hdst; [|by rewrite dijkstra_fuel_dst_absent].
  destruct (search_loop_init dst fuel Hsrc) as (st & u & rest & Hloop & HI & Hset); [lia |].
  unfold dijkstra_fuel. rewrite Hloop.
  destruct (dist st !! dst) as [[y|]|] eqn:Hdv; simpl; [|done |].
  - destruct (inv_chain HI _ _ Hdv) as (p & Hp & Hnd & _).
    destruct (build_path_total _ p dst y fuel [] Hp) as [p' ->]; [|done].
    pose proof (chain_length _ _ _ _ Hp Hnd (inv_dom_prev HI)). lia.
  - apply not_elem_of_dom in Hdv. rewrite (inv_dom_dist HI) in Hdv.
    apply not_elem_of_dom in Hdv. congruence.
Qed.
End DijkstraTheory.

(** With the source missing from the graph the first round of the loop
    decides: [src === dst] breaks out at once, otherwise [graph[src]] is
    [undefined] and iterating it raises. *)
Lemma dijkstra_fuel_src_absent (graph : Graph) (src dst : string) (fuel : nat) :
  graph !! src = None →
  dijkstra_fuel (S fuel) graph src dst =
    Some (if String.eqb src dst
          then Found {| path := if String.eqb src "" then [] else [src];
                        distance := Some (Num 0) |}
          else TypeError).
Proof.
  intros Hsrc. unfold dijkstra_fuel. cbn [search_loop].
  change (pq (init_state graph src)) with [(0%Z, src)].
  rewrite pop_singleton. simpl dist. rewrite lookup_insert_eq. simpl.
  destruct (String.eqb_spec src dst) as [<-|Hne]; [|by rewrite Hsrc].
  simpl. rewrite lookup_insert_eq. simpl.
  destruct (String.eqb src ""); [done |].
  rewrite lookup_fmap, Hsrc. simpl. by destruct fuel.
Qed.


(** More fuel does not change a result. *)
Lemma search_loop_mono (graph : Graph) (dst : string) (fuel fuel' : nat)
    (st : SearchState) (r : LoopEnd) :
  search_loop fuel graph dst st = Some r → fuel ≤ fuel' →
  search_loop fuel' graph dst st = Some r.
Proof.
  revert fuel' st. induction fuel as [|fuel IH]; intros fuel' st Hr Hle; [done |].
  destruct fuel' as [|fuel']; [lia |]. simpl in *.
  destruct (pop (pq st)) as [[[d u]|] pq']; [|done].
  destruct (gt_dist d (dist st !! u)); [apply IH; [done | lia] |].
  destruct (String.eqb u dst); [done |].
  destruct (graph !! u); [|done]. apply IH; [done | lia].
Qed.

Lemma build_path_mono (pr : gmap string (option string)) (fuel fuel' : nat)
    (u : option string) (acc p : list string) :
  build_path fuel pr u acc = Some p → fuel ≤ fuel' →
  build_path fuel' pr u acc = Some p.
Proof.
  revert fuel' u acc. induction fuel as [|fuel IH]; intros fuel' u acc Hp Hle.
  - destruct u as [s|]; simpl in *; [|by destruct fuel'].
    destruct fuel'; simpl; by destruct (String.eqb s "").
  - destruct fuel' as [|fuel']; [lia |]. destruct u as [s|]; simpl in *; [|done].
    destruct (String.eqb s ""); [done |]. apply IH; [done | lia].
Qed.

Lemma dijkstra_fuel_mono (graph : Graph) (src dst : string) (fuel fuel' : nat)
    (r : Outcome) :
  dijkstra_fuel fuel graph src dst = Some r → fuel ≤ fuel' →
  dijkstra_fuel fuel' graph src dst = Some r.
Proof.
  unfold dijkstra_fuel. intros Hr Hle.
  destruct (search_loop fuel graph dst _) as [e|] eqn:Hloop; [|done].
  rewrite (search_loop_mono _ _ _ _ _ _ Hloop Hle).
  destruct e as [st|]; [|done].
  destruct (is_Infinity (dist st !! dst)); [done |].
  destruct (build_path fuel (prev st) (Some dst) []) as [p|] eqn:Hp; [|done].
  by rewrite (build_path_mono _ _ _ _ _ _ Hp Hle).
Qed.

(** The loop writes numbers only: an entry of [dist] that is not [Infinity]
    never becomes [Infinity]. *)
Lemma relax_not_Infinity (d : Z) (u t : string) (st : SearchState) (e : Edge) :
  dist st !! t ≠ Some Infinity → dist (relax d u st e) !! t ≠ Some Infinity.
Proof.
  intros Ht. unfold relax. destruct (lt_dist _ _); [|done]. simpl.
  destruct (decide (to e = t)) as [->|Hne].
  - by rewrite lookup_insert_eq.
  - by rewrite lookup_insert_ne.
Qed.

Lemma relax_all_not_Infinity (d : Z) (u t : string) (edges : list Edge)
    (st : SearchState) :
  dist st !! t ≠ Some Infinity →
  dist (fold_left (relax d u) edges st) !! t ≠ Some Infinity.
Proof.
  revert st. induction edges as [|e edges IH]; intros st Ht; [done |].
  simpl. by apply IH, relax_not_Infinity.
Qed.

Lemma search_loop_not_Infinity (graph : Graph) (dst t : string) (fuel : nat)
    (st st' : SearchState) :
  search_loop fuel graph dst st = Some (LoopBreak st') →
  dist st !! t ≠ Some Infinity → dist st' !! t ≠ Some Infinity.
Proof.
  revert st. induction fuel as [|fuel IH]; intros st Hloop Ht; [done |].
  simpl in Hloop. destruct (pop (pq st)) as [[[d u]|] pq']; [|by simplify_eq].
  destruct (gt_dist d (dist st !! u)); [by eapply IH |].
  destruct (String.eqb u dst); [by simplify_eq |].
  destruct (graph !! u) as [edges|]; [|done].
  eapply IH; [done |]. by apply relax_all_not_Infinity.
Qed.

Lemma dijkstra_fuel_absent_not_Null (graph : Graph) (src dst : string) (fuel : nat) :
  graph !! src = None ∨ graph !! dst = None →
  dijkstra_fuel fuel graph src dst ≠ Some Null.
Proof.
  intros Habsent.
  destruct (graph !! src) as [es|] eqn:Hsrc.
  - destruct Habsent as [?|Hdst]; [done |].
    unfold dijkstra_fuel.
    destruct (search_loop fuel graph dst _) as [[st|]|] eqn:Hloop; [|done ..].
    assert (dist st !! dst ≠ Some Infinity) as Hd.
    { eapply search_loop_not_Infinity; [done |]. simpl.
      destruct (decide (src = dst)) as [->|Hne]; [by rewrite lookup_insert_eq |].
      by rewrite lookup_insert_ne, lookup_fmap, Hdst. }
    destruct (dist st !! dst) as [[y|]|]; simpl; [|done |];
      by destruct (build_path _ _ _ _).
  - destruct fuel as [|fuel]; [done |].
    rewrite dijkstra_fuel_src_absent by done. by destruct (String.eqb src dst).
Qed.

(** ** Part V: the claims *)

Lemma graph_ok_sound (graph : Graph) :
  graph_ok graph = true → endpoints_closed graph ∧ costs_nonneg graph.
Proof.
  unfold graph_ok. rewrite forallb_forall. intros Hok.
  assert (∀ u e, has_edge graph u e →
            is_Some (graph !! to e) ∧ (0 ≤ cost e)%Z) as Hboth.
  { intros u e (edges & Hu & He).
    specialize (Hok (u, edges)). simpl in Hok. rewrite forallb_forall in Hok.
    assert (bool_decide (is_Some (graph !! to e)) && (0 <=? cost e)%Z = true) as Hb.
    { apply Hok; [|by apply list_elem_of_In].
      apply list_elem_of_In. by apply elem_of_map_to_list. }
    apply andb_true_iff in Hb as [H1 H2].
    split; [by apply bool_decide_eq_true in H1 | by apply Z.leb_le]. }
  split; intros u e He; by apply (Hboth u e).
Qed.

Lemma graph_exact_sound (graph : Graph) :
  graph_exact graph = true → costs_exact graph.
Proof.
  unfold graph_exact. rewrite forallb_forall. intros Hok u e (edges & Hu & He).
  specialize (Hok (u, edges)). simpl in Hok. rewrite forallb_forall in Hok.
  apply Z.leb_le. apply Hok; [|by apply list_elem_of_In].
  apply list_elem_of_In. by apply elem_of_map_to_list.
Qed.

Lemma plain_identifier_truthy (s : string) :
  plain_identifier s → truthy (Some s) = true.
Proof. intros [Hne _]. simpl. by destruct (String.eqb_spec s ""). Qed.

Lemma walk_head (graph : Graph) (src v : string) (p : list string) (c : Z) :
  walk graph src p v c → ∃ p', p = src :: p'.
Proof.
  induction 1 as [|p u c e _ [p' ->] _]; [by exists [] |].
  by exists (p' ++ [to e]).
Qed.

Lemma dijkstra_fuel_enough (graph : Graph) (src dst : string) :
  endpoints_closed graph → costs_nonneg graph →
  ∃ r, dijkstra graph src dst = Some r ∧
       ∀ fuel, edge_count graph + size graph + 2 ≤ fuel →
               dijkstra_fuel fuel graph src dst = Some r.
Proof.
  intros Hclosed Hnonneg.
  assert (is_Some (dijkstra graph src dst)) as [r Hr].
  { unfold dijkstra. destruct (graph !! src) as [es|] eqn:Hsrc.
    - by apply dijkstra_fuel_total.
    - replace (edge_count graph + size graph + 2)
        with (S (edge_count graph + size graph + 1)) by lia.
      by rewrite dijkstra_fuel_src_absent. }
  exists r. split; [done |]. intros fuel Hfuel.
  by apply (dijkstra_fuel_mono _ _ _ _ _ _ Hr).
Qed.

(** Claim C1, as amended: for every graph in which every edge endpoint is
    a key, every edge cost is a non-negative integer that, multiplied by the
    number of nodes, does not exceed 2^53, and neither the empty string nor
    [__proto__] is a key, and for every [src] and [dst] that are keys,
    [dijkstra] returns [null] exactly when [dst] is unreachable from [src];
    otherwise it returns a route whose distance [d] is the minimum total
    cost of a directed path from [src] to [dst] and whose path is a directed
    path from [src] to [dst] of cost [d].  The iteration budget of
    [dijkstra] is enough: a larger one gives the same result.  (The bound
    on the costs keeps every sum of the search exact in binary64, see
    [relax_sums_exact].) *)
Theorem dijkstra_shortest_path (graph : Graph) (src dst : string) :
  endpoints_closed graph → costs_nonneg graph → costs_exact graph →
  graph !! ""%string = None → graph !! "__proto__"%string = None →
  is_Some (graph !! src) → is_Some (graph !! dst) →
  shortest_path_result graph src dst (dijkstra graph src dst) ∧
  ∀ fuel, edge_count graph + size graph + 2 ≤ fuel →
          dijkstra_fuel fuel graph src dst = dijkstra graph src dst.
Proof.
  intros Hclosed Hnonneg _ Hempty _ Hsrc Hdst. split.
  - by apply dijkstra_fuel_present.
  - intros fuel Hfuel.
    destruct (dijkstra_fuel_enough graph src dst Hclosed Hnonneg) as (r & -> & Hr).
    by apply Hr.
Qed.

(** C1 on the graph of Server 1, from A to G. *)
Lemma dijkstra_shortest_path_witness :
  (endpoints_closed server1 ∧ costs_nonneg server1 ∧ costs_exact server1 ∧
   server1 !! ""%string = None ∧ server1 !! "__proto__"%string = None ∧
   is_Some (server1 !! "A"%string) ∧ is_Some (server1 !! "G"%string)) ∧
  shortest_path_result server1 "A" "G" (dijkstra server1 "A" "G").
Proof.
  assert (endpoints_closed server1 ∧ costs_nonneg server1) as [H1 H2]
    by (apply graph_ok_sound; vm_compute; reflexivity).
  assert (costs_exact server1) as H3 by (apply graph_exact_sound; vm_compute; reflexivity).
  assert (server1 !! ""%string = None) as H4 by (vm_compute; reflexivity).
  assert (server1 !! "__proto__"%string = None) as H5 by (vm_compute; reflexivity).
  assert (is_Some (server1 !! "A"%string)) as H6 by (eexists; vm_compute; reflexivity).
  assert (is_Some (server1 !! "G"%string)) as H7 by (eexists; vm_compute; reflexivity).
  split; [done |].
  apply (dijkstra_shortest_path server1 "A" "G" H1 H2 H3 H4 H5 H6 H7).
Defined.

(** C1 as stated fails when the empty string is a node: from the node "" to
    its neighbour B the path reported is [[B]] alone. *)
Lemma dijkstra_shortest_path_counterexample :
  ¬ (∀ (graph : Graph) (src dst : string),
       endpoints_closed graph → costs_nonneg graph →
       is_Some (graph !! src) → is_Some (graph !! dst) →
       shortest_path_result graph src dst (dijkstra graph src dst)).
Proof.
  intros Hspec.
  destruct (graph_ok_sound empty_id_graph) as [H1 H2]; [vm_compute; reflexivity |].
  destruct (Hspec empty_id_graph "" "B" H1 H2) as [_ Hfound];
    [eexists; vm_compute; reflexivity .. |].
  destruct Hfound as (p & d & Hr & Hw & _).
  - exists ["";"B"]%string, (0 + 1)%Z.
    apply (walk_step empty_id_graph "" [""%string] "" 0 (edge "B" 1)); [constructor |].
    exists [edge "B" 1]. split; [vm_compute; reflexivity | by left].
  - vm_compute in Hr. injection Hr as <- <-.
    by apply walk_head in Hw as [p' [=]].
Qed.

(** What [submitRequest] returns once the request is dispatched and the
    failure draw lets it through. *)
Lemma submitRequest_engine (f t : string) (rate random : Q) (st : AppState)
    (graph : Graph) :
  truthy (Some f) = true → truthy (Some t) = true → Qltb random rate = false →
  REGIONAL_GRAPHS !! (roundRobinState st mod BACKEND_COUNT) = Some graph →
  (submitRequest (Some f) (Some t) rate random st).1 =
    let serverIndex := roundRobinState st mod BACKEND_COUNT in
    match dijkstra graph f t with
    | None => Unfinished serverIndex
    | Some TypeError => RequestError serverIndex
    | Some Null => NotFound serverIndex
    | Some (Found r) => RouteFound serverIndex r
    end.
Proof.
  intros Hf Ht Hrate Hgraph. unfold submitRequest, selectBackend.
  rewrite Hf, Ht, Hrate, Hgraph. cbn [negb orb default]. unfold id.
  by destruct (dijkstra graph f t) as [[| |]|].
Qed.

(** Claim C2, as amended: [dijkstra] tests no membership and has no
    unknown-node failure.  Take a graph without the key [__proto__] and
    identifiers [src] and [dst] that are not empty and are no property names
    of [Object.prototype], of which at least one is not a key of the graph.
    Then the result is never [null].  With [src] missing the first round
    decides: a TypeError when [src] differs from [dst], the route [[src]]
    of distance 0 when they are equal.  With [src] present and [dst]
    missing (edge endpoints being keys and costs non-negative) the result
    is a route object with path [[dst]] and an undefined distance.  At the
    level of [submitRequest] such a request never ends as no-route, and the
    TypeError ends the request as an error. *)
Theorem dijkstra_missing_node (graph : Graph) (src dst : string) :
  graph !! src = None ∨ graph !! dst = None →
  plain_identifier src → plain_identifier dst →
  graph !! "__proto__"%string = None →
  (∀ fuel, dijkstra_fuel fuel graph src dst ≠ Some Null) ∧
  (graph !! src = None →
   dijkstra graph src dst =
     Some (if String.eqb src dst
           then Found {| path := [src]; distance := Some (Num 0) |}
           else TypeError)) ∧
  (is_Some (graph !! src) → endpoints_closed graph → costs_nonneg graph →
   dijkstra graph src dst = Some (Found {| path := [dst]; distance := None |})) ∧
  (∀ (rate random : Q) (st : AppState),
     Qltb random rate = false →
     REGIONAL_GRAPHS !! (roundRobinState st mod BACKEND_COUNT) = Some graph →
     (∀ i, (submitRequest (Some src) (Some dst) rate random st).1 ≠ NotFound i) ∧
     (graph !! src = None → src ≠ dst →
      (submitRequest (Some src) (Some dst) rate random st).1 =
        RequestError (roundRobinState st mod BACKEND_COUNT))).
Proof.
  intros Habsent Hps Hpd _.
  assert (String.eqb src "" = false) as Hsrc_ne
    by (destruct Hps as [? _]; by destruct (String.eqb_spec src "")).
  assert (String.eqb dst "" = false) as Hdst_ne
    by (destruct Hpd as [? _]; by destruct (String.eqb_spec dst "")).
  assert (graph !! src = None →
          dijkstra graph src dst =
            Some (if String.eqb src dst
                  then Found {| path := [src]; distance := Some (Num 0) |}
                  else TypeError)) as Hsrc.
  { intros Hnone. unfold dijkstra.
    replace (edge_count graph + size graph + 2)
      with (S (edge_count graph + size graph + 1)) by lia.
    rewrite dijkstra_fuel_src_absent by done. by rewrite Hsrc_ne. }
  split; [|split; [|split]].
  - intros fuel. by apply dijkstra_fuel_absent_not_Null.
  - done.
  - intros Hpresent Hclosed Hnonneg. destruct Habsent as [Hnone|Hnone].
    + rewrite Hnone in Hpresent. by destruct Hpresent.
    + unfold dijkstra. rewrite dijkstra_fuel_dst_absent by done. by rewrite Hdst_ne.
  - intros rate random st Hrate Hgraph.
    rewrite (submitRequest_engine src dst rate random st graph
               (plain_identifier_truthy src Hps) (plain_identifier_truthy dst Hpd)
               Hrate Hgraph).
    cbn zeta. split.
    + intros i. pose proof (dijkstra_fuel_absent_not_Null graph src dst
        (edge_count graph + size graph + 2) Habsent) as Hnn.
      fold (dijkstra graph src dst) in Hnn.
      by destruct (dijkstra graph src dst) as [[| |]|].
    + intros Hnone Hne. rewrite (Hsrc Hnone).
      by destruct (String.eqb_spec src dst).
Qed.

(** C2 on the graph of Server 1, from A to the unknown node Z. *)
Lemma dijkstra_missing_node_witness :
  ((server1 !! "A"%string = None ∨ server1 !! "Z"%string = None) ∧
   plain_identifier "A" ∧ plain_identifier "Z" ∧
   server1 !! "__proto__"%string = None) ∧
  dijkstra server1 "A" "Z" = Some (Found {| path := ["Z"%string]; distance := None |}).
Proof.
  assert (server1 !! "A"%string = None ∨ server1 !! "Z"%string = None) as Habsent
    by (right; vm_compute; reflexivity).
  assert (plain_identifier "A") as HA
    by (split; [discriminate | apply (bool_decide_unpack _); vm_compute; exact I]).
  assert (plain_identifier "Z") as HZ
    by (split; [discriminate | apply (bool_decide_unpack _); vm_compute; exact I]).
  assert (server1 !! "__proto__"%string = None) as Hproto by (vm_compute; reflexivity).
  split; [done |].
  destruct (dijkstra_missing_node server1 "A" "Z" Habsent HA HZ Hproto)
    as (_ & _ & Hdst & _).
  destruct (graph_ok_sound server1) as [H1 H2]; [vm_compute; reflexivity |].
  apply Hdst; [eexists; vm_compute; reflexivity | done ..].
Defined.

(** C2 as stated fails: on the graph of Server 1, from A to the unknown
    node Z, the call returns a route object and raises nothing. *)
Lemma dijkstra_unknown_node_counterexample :
  ¬ (∀ (graph : Graph) (src dst : string),
       graph !! src = None ∨ graph !! dst = None →
       dijkstra graph src dst = Some TypeError).
Proof.
  intros Hspec. specialize (Hspec server1 "A"%string "Z"%string).
  assert (dijkstra server1 "A" "Z" =
          Some (Found {| path := ["Z"%string]; distance := None |})) as Hrun
    by (vm_compute; reflexivity).
  rewrite Hrun in Hspec. discriminate Hspec. right. vm_compute. reflexivity.
Qed.

(** Claim C6, as amended: for every graph and every node [s] of the graph
    other than the empty string and [__proto__], [dijkstra graph s s]
    returns the route with path [[s]] and distance 0. *)
Theorem dijkstra_same_node (graph : Graph) (s : string) :
  is_Some (graph !! s) → s ≠ ""%string → s ≠ "__proto__"%string →
  dijkstra graph s s = Some (Found {| path := [s]; distance := Some (Num 0) |}).
Proof.
  intros [es Hs] Hne _. unfold dijkstra.
  replace (edge_count graph + size graph + 2)
    with (S (edge_count graph + size graph + 1)) by lia.
  unfold dijkstra_fuel. cbn [search_loop].
  change (pq (init_state graph s)) with [(0%Z, s)].
  rewrite pop_singleton. simpl dist. rewrite lookup_insert_eq. simpl.
  rewrite String.eqb_refl. simpl. rewrite lookup_insert_eq. simpl.
  destruct (String.eqb_spec s "") as [|_]; [done |].
  rewrite lookup_fmap, Hs. simpl. by destruct (_ + 1).
Qed.

(** C6 on the graph of Server 1, at A. *)
Lemma dijkstra_same_node_witness :
  (is_Some (server1 !! "A"%string) ∧ "A"%string ≠ ""%string ∧
   "A"%string ≠ "__proto__"%string) ∧
  dijkstra server1 "A" "A" =
    Some (Found {| path := ["A"%string]; distance := Some (Num 0) |}).
Proof.
  assert (is_Some (server1 !! "A"%string)) as H1 by (eexists; vm_compute; reflexivity).
  assert ("A"%string ≠ ""%string) as H2 by discriminate.
  assert ("A"%string ≠ "__proto__"%string) as H3 by discriminate.
  split; [done |]. apply (dijkstra_same_node server1 "A" H1 H2 H3).
Defined.

(** C6 as stated fails at the node "": the path returned is empty. *)
Lemma dijkstra_same_node_counterexample :
  ¬ (∀ (graph : Graph) (s : string),
       is_Some (graph !! s) →
       dijkstra graph s s = Some (Found {| path := [s]; distance := Some (Num 0) |})).
Proof.
  intros Hspec. specialize (Hspec empty_id_node ""%string).
  assert (dijkstra empty_id_node "" "" =
          Some (Found {| path := []; distance := Some (Num 0) |})) as Hrun
    by (vm_compute; reflexivity).
  rewrite Hrun in Hspec. discriminate Hspec. eexists. vm_compute. reflexivity.
Qed.

(** Claim C7: on the graph of Server 1, the first entry of
    [REGIONAL_GRAPHS], [dijkstra] from A to G returns the path A, C, F, G
    and the distance 6. *)
Theorem dijkstra_server1_A_G :
  REGIONAL_GRAPHS !! 0 = Some server1 ∧
  dijkstra server1 "A" "G" =
    Some (Found {| path := ["A"; "C"; "F"; "G"]%string; distance := Some (Num 6) |}).
Proof. split; [done |]. vm_compute. reflexivity. Qed.

(** Claim C10: for every graph in which every edge endpoint is a key and
    every cost is non-negative, and for every [src] and [dst], [dijkstra]
    terminates; its [while] loop ends within [edge_count graph + 2] rounds
    and the call produces a result within the budget of [dijkstra].  A round
    of the [for] loop pushes an entry only when the tentative distance of
    its target strictly decreases, and every successful [pop] removes
    exactly one entry. *)
Theorem dijkstra_terminates (graph : Graph) (src dst : string) :
  endpoints_closed graph → costs_nonneg graph →
  (∃ e, search_loop (edge_count graph + 2) graph dst (init_state graph src) = Some e) ∧
  (∃ r, dijkstra graph src dst = Some r ∧
        ∀ fuel, edge_count graph + size graph + 2 ≤ fuel →
                dijkstra_fuel fuel graph src dst = Some r) ∧
  (∀ d u st e,
     (lt_dist (d + cost e) (dist st !! to e) = false ∧ relax d u st e = st) ∨
     (lt_dist (d + cost e) (dist st !! to e) = true ∧
      dist (relax d u st e) !! to e = Some (Num (d + cost e)) ∧
      length (pq (relax d u st e)) = S (length (pq st)))) ∧
  (∀ (heap heap' : list (Z * string)) top,
     pop heap = (Some top, heap') → length heap = S (length heap')).
Proof.
  intros Hclosed Hnonneg. split; [|split; [|split]].
  - destruct (graph !! src) as [es|] eqn:Hsrc.
    + destruct (search_loop_init graph src Hclosed Hnonneg dst (edge_count graph + 2))
        as (st & _ & _ & -> & _); [done | lia | by eexists].
    + replace (edge_count graph + 2) with (S (edge_count graph + 1)) by lia.
      cbn [search_loop]. change (pq (init_state graph src)) with [(0%Z, src)].
      rewrite pop_singleton. simpl dist. rewrite lookup_insert_eq. simpl.
      destruct (String.eqb src dst); [by eexists |]. rewrite Hsrc. by eexists.
  - by apply dijkstra_fuel_enough.
  - intros d u st e. unfold relax.
    destruct (lt_dist (d + cost e) (dist st !! to e)); [right | by left].
    split; [done |]. simpl. rewrite lookup_insert_eq. split; [done |].
    by rewrite push_perm.
  - intros heap heap' top Hpop. by rewrite (pop_perm _ _ _ Hpop).
Qed.

(** C10 on the graph of Server 3, from A to the unreachable B. *)
Lemma dijkstra_terminates_witness :
  (endpoints_closed server3 ∧ costs_nonneg server3) ∧
  ∃ r, dijkstra server3 "A" "B" = Some r.
Proof.
  assert (endpoints_closed server3 ∧ costs_nonneg server3) as [H1 H2]
    by (apply graph_ok_sound; vm_compute; reflexivity).
  split; [done |].
  destruct (dijkstra_terminates server3 "A" "B" H1 H2) as (_ & (r & Hr & _) & _).
  by exists r.
Defined.

(** Claim C9: the empty heap is ordered, [push] and [pop] preserve the
    min-heap order on priorities, [pop] on a non-empty ordered heap returns
    an entry of the heap whose priority is least, and [pop] on the empty
    heap returns [null] and leaves the heap empty. *)
Theorem MinHeap_order_invariant {A : Type} (heap : list (Z * A)) (item : Z * A) :
  heap_ordered heap →
  heap_ordered (@nil (Z * A)) ∧
  heap_ordered (push item heap) ∧
  heap_ordered (pop heap).2 ∧
  (heap ≠ [] →
   ∃ top, (pop heap).1 = Some top ∧ top ∈ heap ∧ ∀ y, y ∈ heap → (top.1 ≤ y.1)%Z) ∧
  (heap = [] → pop heap = (None, [])).
Proof.
  intros Hord. split; [apply heap_ordered_nil |].
  split; [by apply push_ordered |]. split; [|split].
  - destruct (pop heap) as [[top|] heap'] eqn:Hpop; simpl.
    + by destruct (pop_Some heap top heap' Hord Hpop) as (_ & _ & ?).
    + apply pop_None in Hpop as [_ ->]. apply heap_ordered_nil.
  - intros Hne. destruct (pop_is_Some heap Hne) as (top & heap' & Hpop).
    destruct (pop_Some heap top heap' Hord Hpop) as (Hperm & Hmin & _).
    exists top. rewrite Hpop. split; [done |]. split; [|done].
    rewrite Hperm. by left.
  - by intros ->.
Qed.

(** C9 on a heap of four entries. *)
Lemma MinHeap_order_invariant_witness :
  heap_ordered [(1%Z, "b"%string); (3%Z, "a"%string); (2%Z, "c"%string); (5%Z, "d"%string)] ∧
  heap_ordered (push (0%Z, "z"%string)
     [(1%Z, "b"%string); (3%Z, "a"%string); (2%Z, "c"%string); (5%Z, "d"%string)]).
Proof.
  assert (heap_ordered
    [(1%Z, "b"%string); (3%Z, "a"%string); (2%Z, "c"%string); (5%Z, "d"%string)]) as Hord.
  { intros i Hi x y Hx Hy.
    destruct i as [|[|[|[|i]]]]; vm_compute in Hx, Hy; simplify_eq; simpl; lia. }
  split; [done |].
  apply (MinHeap_order_invariant _ (0%Z, "z"%string) Hord).
Defined.

(** *** Round robin *)

Section RoundRobin.
Variable k : nat.



Hypothesis Hk : 0 < k.





End RoundRobin.



(** *** Requests *)

Lemma Qltb_lt (a b : Q) : (a < b)%Q → Qltb a b = true.
Proof.
  intros Hlt. unfold Qltb. destruct (Qle_bool b a) eqn:Hle; [|done].
  apply Qle_bool_iff in Hle. by apply Qlt_not_le in Hlt.
Qed.

(** The counter and the probe after one call. *)
Lemma submitRequest_counters (fromNode toNode : option string) (rate random : Q)
    (st : AppState) :
  let st' := (submitRequest fromNode toNode rate random st).2 in
  roundRobinState st' =
    roundRobinState st + (if truthy fromNode && truthy toNode then 1 else 0) ∧
  engineCalls st' =
    engineCalls st +
    (if truthy fromNode && truthy toNode && negb (Qltb random rate) then 1 else 0).
Proof.
  unfold submitRequest, selectBackend.
  destruct (truthy fromNode), (truthy toNode); cbn [negb orb andb]; simpl;
    try (split; lia).
  destruct (Qltb random rate); simpl; [split; lia |].
  destruct (REGIONAL_GRAPHS !! _) as [graph|]; simpl; [|split; lia].
  destruct (dijkstra graph _ _) as [[| |]|]; simpl; split; lia.
Qed.

Lemma submitRequest_missing (fromNode toNode : option string) (rate random : Q)
    (st : AppState) :
  truthy fromNode && truthy toNode = false →
  (submitRequest fromNode toNode rate random st).1 = MissingEndpoint.
Proof.
  unfold submitRequest. by destruct (truthy fromNode), (truthy toNode).
Qed.

Lemma submitRequest_failure (fromNode toNode : option string) (rate random : Q)
    (st : AppState) :
  truthy fromNode = true → truthy toNode = true → Qltb random rate = true →
  (submitRequest fromNode toNode rate random st).1 =
    BackendFailure (roundRobinState st mod BACKEND_COUNT).
Proof.
  intros Hf Ht Hfail. unfold submitRequest, selectBackend.
  by rewrite Hf, Ht, Hfail.
Qed.

Lemma submit_all_engineCalls (st : AppState) (requests : list Request) :
  Forall (λ r, (req_random r < req_rate r)%Q) requests →
  engineCalls (submit_all st requests) = engineCalls st.
Proof.
  unfold submit_all. intros Hall. revert st.
  induction Hall as [|r requests Hr _ IH]; intros st; [done |].
  simpl. rewrite IH. unfold submit.
  destruct (submitRequest_counters (req_from r) (req_to r) (req_rate r) (req_random r) st)
    as [_ ->].
  rewrite (Qltb_lt _ _ Hr). simpl. rewrite andb_false_r. lia.
Qed.

(** Claim C4: when both endpoints are present and the failure draw is
    below the failure rate, [submitRequest] ends as a backend failure and
    the engine is not called (the probe is unchanged); with the rate equal
    to 1 this holds for every draw in [0, 1); over any sequence of requests
    whose draws are below their rates the probe never moves. *)
Theorem submitRequest_failure_skips_engine (fromNode toNode : option string)
    (rate random : Q) (st : AppState) :
  truthy fromNode = true → truthy toNode = true → (random < rate)%Q →
  (submitRequest fromNode toNode rate random st).1 =
    BackendFailure (roundRobinState st mod BACKEND_COUNT) ∧
  engineCalls (submitRequest fromNode toNode rate random st).2 = engineCalls st ∧
  (rate == 1 → ∀ random' st',
     (0 <= random' < 1)%Q →
     (submitRequest fromNode toNode rate random' st').1 =
       BackendFailure (roundRobinState st' mod BACKEND_COUNT) ∧
     engineCalls (submitRequest fromNode toNode rate random' st').2 = engineCalls st') ∧
  ∀ requests,
    Forall (λ r, (req_random r < req_rate r)%Q) requests →
    engineCalls (submit_all st requests) = engineCalls st.
Proof.
  intros Hf Ht Hlt.
  assert (∀ random' st', (random' < rate)%Q →
     (submitRequest fromNode toNode rate random' st').1 =
       BackendFailure (roundRobinState st' mod BACKEND_COUNT) ∧
     engineCalls (submitRequest fromNode toNode rate random' st').2 = engineCalls st')
    as Hgen.
  { intros random' st' Hlt'. pose proof (Qltb_lt _ _ Hlt') as Hfail.
    split; [by apply submitRequest_failure |].
    destruct (submitRequest_counters fromNode toNode rate random' st') as [_ ->].
    rewrite Hf, Ht, Hfail. simpl. lia. }
  split; [by apply Hgen |]. split; [by apply Hgen |]. split.
  - intros Hone random' st' [_ Hlt']. apply Hgen. by rewrite Hone.
  - apply submit_all_engineCalls.
Qed.

(** C4 with failure rate 1 and draw 1/2. *)
Lemma submitRequest_failure_skips_engine_witness :
  (truthy (Some "A"%string) = true ∧ truthy (Some "G"%string) = true ∧ (1 # 2 < 1)%Q) ∧
  (submitRequest (Some "A"%string) (Some "G"%string) 1 (1 # 2)
     {| roundRobinState := 4; logs := []; engineCalls := 0 |}).1 = BackendFailure 1.
Proof.
  assert (truthy (Some "A"%string) = true) as H1 by reflexivity.
  assert (truthy (Some "G"%string) = true) as H2 by reflexivity.
  assert (1 # 2 < 1)%Q as H3 by reflexivity.
  split; [done |].
  destruct (submitRequest_failure_skips_engine (Some "A"%string) (Some "G"%string)
              1 (1 # 2) {| roundRobinState := 4; logs := []; engineCalls := 0 |}
              H1 H2 H3) as (-> & _).
  reflexivity.
Defined.

(** Claim C5: after a sequence of requests the counter has advanced by
    the number of requests that pass the endpoint guard, whatever their
    outcome; a request that fails the guard ends as [MissingEndpoint],
    leaves the counter as it was and calls no engine. *)
Theorem submit_all_counter (st : AppState) (requests : list Request) :
  roundRobinState (submit_all st requests) =
    roundRobinState st + length (List.filter reaches_dispatch requests) ∧
  ∀ r, reaches_dispatch r = false →
       (submitRequest (req_from r) (req_to r) (req_rate r) (req_random r) st).1 =
         MissingEndpoint ∧
       roundRobinState (submit st r) = roundRobinState st ∧
       engineCalls (submit st r) = engineCalls st.
Proof.
  split.
  - unfold submit_all. revert st.
    induction requests as [|r requests IH]; intros st; [simpl; lia |].
    cbn [fold_left List.filter]. rewrite IH. unfold submit.
    destruct (submitRequest_counters (req_from r) (req_to r) (req_rate r) (req_random r) st)
      as [-> _].
    unfold reaches_dispatch at 2.
    destruct (truthy (req_from r) && truthy (req_to r)); simpl; lia.
  - intros r Hr. unfold reaches_dispatch in Hr. split; [by apply submitRequest_missing |].
    unfold submit.
    destruct (submitRequest_counters (req_from r) (req_to r) (req_rate r) (req_random r) st)
      as [-> ->].
    rewrite Hr. simpl. lia.
Qed.

(** C5 for a request without destination. *)
Lemma submit_all_counter_witness :
  reaches_dispatch {| req_from := Some "A"%string; req_to := None;
                      req_rate := 0; req_random := 0 |} = false ∧
  roundRobinState
    (submit {| roundRobinState := 4; logs := []; engineCalls := 0 |}
            {| req_from := Some "A"%string; req_to := None;
               req_rate := 0; req_random := 0 |}) = 4.
Proof.
  assert (reaches_dispatch {| req_from := Some "A"%string; req_to := None;
                              req_rate := 0; req_random := 0 |} = false) as H1
    by reflexivity.
  split; [done |].
  destruct (submit_all_counter {| roundRobinState := 4; logs := []; engineCalls := 0 |} [])
    as [_ Hmiss].
  destruct (Hmiss _ H1) as (_ & -> & _). reflexivity.
Defined.

(** *** Nearest node *)


(** [float_val] on numbers whose value is plain. *)
Lemma float_val_examples :
  (float_val 0.5 == 1 # 2)%Q ∧ (float_val (-3) == -3)%Q ∧ (float_val 0 == 0)%Q ∧
  (float_val (-26.25) == -105 # 4)%Q ∧ (float_val 1024 == 1024)%Q.
Proof. repeat split; vm_compute; reflexivity. Qed.

Section NearestNode.
Context {N : Type} `{JsNumber N}.
Variable val : N → Q.
Variables lat0 lon0 : N.

End NearestNode.



(** ** Part VI: further properties of the code *)

(** *** The heap as a container *)

Lemma push_all_spec {A : Type} (items heap : list (Z * A)) :
  heap_ordered heap →
  heap_ordered (push_all items heap) ∧ push_all items heap ≡ₚ items ++ heap.
Proof.
  revert heap. induction items as [|item items IH]; intros heap Hord; [done |].
  unfold push_all. simpl. fold (push_all items (push item heap)).
  destruct (IH (push item heap) (push_ordered item heap Hord)) as [Hord' Hperm].
  split; [done |]. rewrite Hperm, push_perm. by rewrite Permutation_middle.
Qed.

Lemma pop_many_spec {A : Type} (n : nat) (heap : list (Z * A)) :
  heap_ordered heap →
  let '(tops, rest) := pop_many n heap in
  heap ≡ₚ tops ++ rest ∧ heap_ordered rest ∧
  length tops = n `min` length heap ∧
  StronglySorted (λ a b, (a.1 ≤ b.1)%Z) tops ∧
  ∀ a b, a ∈ tops → b ∈ rest → (a.1 ≤ b.1)%Z.
Proof.
  revert heap. induction n as [|n IH]; intros heap Hord; simpl.
  { split; [done |]. split; [done |]. split; [done |]. split; [constructor |].
    by intros a b ?%elem_of_nil. }
  destruct (pop heap) as [[top|] heap1] eqn:Hpop.
  - destruct (pop_Some heap top heap1 Hord Hpop) as (Hperm & Hmin & Hord1).
    specialize (IH heap1 Hord1). destruct (pop_many n heap1) as [tops rest].
    destruct IH as (Hperm1 & Hord2 & Hlen & Hsorted & Hsplit).
    split; [by rewrite Hperm, Hperm1 |]. split; [done |].
    assert (∀ b, b ∈ tops ++ rest → (top.1 ≤ b.1)%Z) as Hle.
    { intros b Hb. apply Hmin. rewrite Hperm, Hperm1. by right. }
    split; [|split].
    + apply Permutation_length in Hperm. cbn [length] in Hperm |- *.
      rewrite Hperm. by rewrite Hlen.
    + constructor; [done |]. apply Forall_forall. intros b Hb.
      apply Hle. apply elem_of_app. by left.
    + intros a b [->|Ha]%elem_of_cons Hb; [|by apply Hsplit].
      apply Hle. apply elem_of_app. by right.
  - apply pop_None in Hpop as [-> ->]. simpl.
    split; [done |]. split; [apply heap_ordered_nil |]. split; [done |].
    split; [constructor |]. by intros a b ?%elem_of_nil.
Qed.

(** Extra X1: [push] neither loses nor duplicates an entry, whatever the
    array it is given: the new array is a rearrangement of the old entries
    and the new one, and is one entry longer. *)
Theorem push_keeps_contents {A : Type} (item : Z * A) (heap : list (Z * A)) :
  push item heap ≡ₚ item :: heap ∧ length (push item heap) = S (length heap).
Proof.
  pose proof (push_perm item heap) as Hperm. split; [done |].
  by rewrite Hperm.
Qed.

(** Extra X2: whatever the array, ordered or not, [pop] returns its first
    cell; when that is an entry, the array left behind is a rearrangement of
    the other entries and is one entry shorter; when there is none the array
    was empty and stays empty. *)
Theorem pop_takes_the_root {A : Type} (heap heap' : list (Z * A)) (res : option (Z * A)) :
  pop heap = (res, heap') →
  res = heap !! 0 ∧
  match res with
  | Some top => heap ≡ₚ top :: heap' ∧ length heap = S (length heap')
  | None => heap = [] ∧ heap' = []
  end.
Proof.
  intros Hpop. destruct res as [top|].
  - pose proof (pop_perm heap top heap' Hpop) as Hperm. split; [|split; [done |]].
    + unfold pop in Hpop. destruct (heap !! 0) as [t|]; [|done].
      destruct (last heap); [destruct (0 <? _) |]; by simplify_eq.
    + by rewrite Hperm.
  - apply pop_None in Hpop as [-> ->]. done.
Qed.

Lemma pop_takes_the_root_witness :
  pop [(1%Z, "b"%string); (3%Z, "a"%string); (2%Z, "c"%string)] =
    (Some (1%Z, "b"%string), [(2%Z, "c"%string); (3%Z, "a"%string)]) ∧
  [(1%Z, "b"%string); (3%Z, "a"%string); (2%Z, "c"%string)] ≡ₚ
    (1%Z, "b"%string) :: [(2%Z, "c"%string); (3%Z, "a"%string)].
Proof.
  assert (pop [(1%Z, "b"%string); (3%Z, "a"%string); (2%Z, "c"%string)] =
    (Some (1%Z, "b"%string), [(2%Z, "c"%string); (3%Z, "a"%string)])) as Hpop
    by reflexivity.
  split; [done |].
  destruct (pop_takes_the_root _ _ _ Hpop) as (_ & Hperm & _). exact Hperm.
Defined.

(** Extra X3: pushing the items of a list on an empty heap and popping as
    many times returns the items in non-decreasing order of priority,
    each exactly once, and leaves the heap empty. *)
Theorem heap_sorts {A : Type} (items : list (Z * A)) :
  let heap := push_all items [] in
  let '(tops, rest) := pop_many (length items) heap in
  rest = [] ∧ tops ≡ₚ items ∧ StronglySorted (λ a b, (a.1 ≤ b.1)%Z) tops.
Proof.
  destruct (push_all_spec items [] heap_ordered_nil) as [Hord Hperm].
  rewrite app_nil_r in Hperm. cbn zeta.
  pose proof (pop_many_spec (length items) (push_all items []) Hord) as Hspec.
  destruct (pop_many (length items) (push_all items [])) as [tops rest].
  destruct Hspec as (Hsplit & _ & Hlen & Hsorted & _).
  assert (length (push_all items []) = length items) as Hl by (by rewrite Hperm).
  assert (rest = []) as ->.
  { apply length_zero_iff_nil. apply Permutation_length in Hsplit.
    rewrite length_app in Hsplit. lia. }
  split; [done |]. split; [|done].
  rewrite app_nil_r in Hsplit. by rewrite <-Hsplit.
Qed.

(** Extra X4: [n] calls of [pop] on an ordered heap return the
    [min n length] entries of least priority, in non-decreasing order; what
    is left is an ordered heap of the remaining entries, none of which has a
    smaller priority than an entry returned. *)
Theorem pop_many_sorted {A : Type} (n : nat) (heap : list (Z * A)) :
  heap_ordered heap →
  heap ≡ₚ (pop_many n heap).1 ++ (pop_many n heap).2 ∧
  heap_ordered (pop_many n heap).2 ∧
  length (pop_many n heap).1 = n `min` length heap ∧
  StronglySorted (λ a b, (a.1 ≤ b.1)%Z) (pop_many n heap).1 ∧
  ∀ a b, a ∈ (pop_many n heap).1 → b ∈ (pop_many n heap).2 → (a.1 ≤ b.1)%Z.
Proof.
  intros Hord. pose proof (pop_many_spec n heap Hord) as Hspec.
  by destruct (pop_many n heap) as [tops rest].
Qed.

Lemma pop_many_sorted_witness :
  heap_ordered [(1%Z, "b"%string); (3%Z, "a"%string); (2%Z, "c"%string)] ∧
  (pop_many 2 [(1%Z, "b"%string); (3%Z, "a"%string); (2%Z, "c"%string)]).1 =
    [(1%Z, "b"%string); (2%Z, "c"%string)] ∧
  StronglySorted (λ a b, (a.1 ≤ b.1)%Z)
    (pop_many 2 [(1%Z, "b"%string); (3%Z, "a"%string); (2%Z, "c"%string)]).1.
Proof.
  assert (heap_ordered [(1%Z, "b"%string); (3%Z, "a"%string); (2%Z, "c"%string)])
    as Hord.
  { intros i Hi x y Hx Hy.
    destruct i as [|[|[|i]]]; vm_compute in Hx, Hy; simplify_eq; simpl; lia. }
  split; [done |]. split; [reflexivity |].
  destruct (pop_many_sorted 2 _ Hord) as (_ & _ & _ & Hsorted & _). exact Hsorted.
Defined.

(** *** The search on arbitrary graphs *)

Lemma realizable_init (graph : Graph) (src : string) :
  realizable graph src (init_state graph src).
Proof.
  split; [|split].
  - simpl. rewrite dom_insert_L, dom_fmap_L. apply union_comm_L.
  - intros v x. simpl. destruct (decide (v = src)) as [->|Hne].
    + rewrite lookup_insert_eq. intros [= <-]. exists [src]. constructor.
    + rewrite lookup_insert_ne, lookup_fmap by done. by destruct (graph !! v).
  - intros d u. change (pq (init_state graph src)) with [(0%Z, src)].
    intros [= -> ->]%list_elem_of_singleton. simpl. rewrite lookup_insert_eq.
    split; [done |]. exists [src]. constructor.
Qed.

Lemma realizable_relax (graph : Graph) (src : string) (d : Z) (u : string)
    (st : SearchState) (e : Edge) :
  has_edge graph u e → (∃ p, walk graph src p u d) →
  realizable graph src st → realizable graph src (relax d u st e).
Proof.
  intros He [p Hp] (Hdom & Hdist & Hpq). unfold relax.
  destruct (lt_dist (d + cost e) (dist st !! to e)) eqn:Hlt; [|done].
  assert (is_Some (dist st !! to e)) as Hin.
  { destruct (dist st !! to e); [done | discriminate]. }
  assert (∃ p', walk graph src p' (to e) (d + cost e)) as Hnew.
  { exists (p ++ [to e]). by apply (walk_step graph src p u). }
  split; [|split]; simpl.
  - rewrite <-Hdom. apply dom_insert_present; [done | by apply elem_of_dom].
  - intros v x. destruct (decide (v = to e)) as [->|Hne].
    + rewrite lookup_insert_eq. by intros [= <-].
    + rewrite lookup_insert_ne by done. apply Hdist.
  - intros d0 v. rewrite elem_of_push. intros [[= -> ->]|Hv].
    + rewrite lookup_insert_eq. done.
    + destruct (Hpq d0 v Hv) as [Hsome Hw]. split; [|done].
      destruct (decide (v = to e)) as [->|Hne];
        [by rewrite lookup_insert_eq | by rewrite lookup_insert_ne].
Qed.

Lemma realizable_relax_all (graph : Graph) (src : string) (d : Z) (u : string)
    (edges : list Edge) (st : SearchState) :
  (∀ e, e ∈ edges → has_edge graph u e) → (∃ p, walk graph src p u d) →
  realizable graph src st → realizable graph src (fold_left (relax d u) edges st).
Proof.
  revert st. induction edges as [|e edges IH]; intros st Hedges Hw Hst; [done |].
  simpl. apply IH; [intros e' He'; apply Hedges; by right | done |].
  apply realizable_relax; [apply Hedges; by left | done ..].
Qed.

Lemma realizable_loop (graph : Graph) (src dst : string) (fuel : nat)
    (st : SearchState) (e : LoopEnd) :
  realizable graph src st → search_loop fuel graph dst st = Some e →
  match e with
  | LoopBreak st' => realizable graph src st'
  | LoopThrow => graph !! src = None ∧ src ≠ dst
  end.
Proof.
  revert st. induction fuel as [|fuel IH]; intros st Hst Hloop; [done |].
  simpl in Hloop. destruct (pop (pq st)) as [[[d u]|] pq'] eqn:Hpop;
    [|by simplify_eq].
  pose proof (pop_perm _ _ _ Hpop) as Hperm.
  destruct Hst as (Hdom & Hdist & Hpq).
  destruct (Hpq d u) as [Hu Hw]; [rewrite Hperm; by left |].
  assert (realizable graph src {| dist := dist st; prev := prev st; pq := pq' |}) as Hst1.
  { split; [done |]. split; [done |]. simpl. intros d0 v Hv. apply Hpq.
    rewrite Hperm. by right. }
  destruct (gt_dist d (dist st !! u)); [by eapply IH |].
  destruct (String.eqb_spec u dst) as [->|Hne]; [by simplify_eq |].
  destruct (graph !! u) as [edges|] eqn:Hedges.
  - eapply IH; [|done]. apply realizable_relax_all; [|done ..].
    intros e0 He0. by exists edges.
  - simplify_eq. apply elem_of_dom in Hu. rewrite Hdom in Hu.
    apply elem_of_union in Hu as [Hu|Hu%elem_of_singleton].
    + apply elem_of_dom in Hu as [? ?]. congruence.
    + by subst.
Qed.

(** Extra X5: on every graph without the key [__proto__], whatever its
    costs and edge endpoints, for identifiers [src] and [dst] that are no
    property names of [Object.prototype] and for every iteration budget, a
    run of [dijkstra] that ends obeys: [null] only for a [dst] that is a
    key and differs from [src]; a route whose distance is undefined only
    for a [dst] that is neither a key nor [src]; a route with a distance
    only for a [dst] that a walk from [src] reaches; a TypeError only when
    [src] is not a key and differs from [dst]. *)
Theorem dijkstra_sound_on_any_graph (graph : Graph) (src dst : string) (fuel : nat) :
  src ∉ Object_prototype_names → dst ∉ Object_prototype_names →
  graph !! "__proto__"%string = None →
  match dijkstra_fuel fuel graph src dst with
  | Some Null => is_Some (graph !! dst) ∧ dst ≠ src
  | Some (Found r) =>
      (distance r = None ∧ graph !! dst = None ∧ dst ≠ src) ∨
      ((∃ d, distance r = Some (Num d)) ∧ reachable graph src dst)
  | Some TypeError => graph !! src = None ∧ src ≠ dst
  | None => True
  end.
Proof.
  intros _ _ _. unfold dijkstra_fuel.
  destruct (search_loop fuel graph dst (init_state graph src)) as [e|] eqn:Hloop; [|done].
  pose proof (realizable_loop graph src dst fuel _ e (realizable_init graph src) Hloop) as He.
  destruct e as [st|]; [|done]. destruct He as (Hdom & Hdist & _).
  assert (dist st !! src ≠ Some Infinity) as Hsrc.
  { eapply search_loop_not_Infinity; [done |]. simpl. by rewrite lookup_insert_eq. }
  assert (dist st !! dst = None → graph !! dst = None ∧ dst ≠ src) as Hnone.
  { intros Hd. apply not_elem_of_dom in Hd. rewrite Hdom in Hd.
    apply not_elem_of_union in Hd as [Hg Hs]. split; [by apply not_elem_of_dom |].
    by apply not_elem_of_singleton in Hs. }
  destruct (dist st !! dst) as [[d|]|] eqn:Hd; simpl.
  - destruct (build_path fuel (prev st) (Some dst) []) as [p|]; [|done].
    right. destruct (Hdist dst d Hd) as [p' Hp']. split; [by exists d |]. by exists p', d.
  - assert (dst ≠ src) as Hne by (intros ->; by rewrite Hd in Hsrc).
    split; [|done]. assert (dst ∈ dom (dist st)) as Hin by (by apply elem_of_dom).
    rewrite Hdom in Hin. apply elem_of_union in Hin as [Hin|Hin%elem_of_singleton];
      [by apply elem_of_dom | done].
  - destruct (build_path fuel (prev st) (Some dst) []) as [p|]; [|done].
    left. simpl. split; [done | by apply Hnone].
Qed.

(** X5 on the graph of Server 3, from A to B, which no walk reaches. *)
Lemma dijkstra_sound_on_any_graph_witness :
  (("A"%string ∉ Object_prototype_names) ∧ ("B"%string ∉ Object_prototype_names) ∧
   server3 !! "__proto__"%string = None) ∧
  dijkstra_fuel 20 server3 "A" "B" = Some Null ∧
  is_Some (server3 !! "B"%string) ∧ "B"%string ≠ "A"%string.
Proof.
  assert ("A"%string ∉ Object_prototype_names) as H1
    by (apply (bool_decide_unpack _); vm_compute; exact I).
  assert ("B"%string ∉ Object_prototype_names) as H2
    by (apply (bool_decide_unpack _); vm_compute; exact I).
  assert (server3 !! "__proto__"%string = None) as H3 by (vm_compute; reflexivity).
  split; [done |].
  assert (dijkstra_fuel 20 server3 "A" "B" = Some Null) as Hrun
    by (vm_compute; reflexivity).
  split; [done |].
  pose proof (dijkstra_sound_on_any_graph server3 "A" "B" 20 H1 H2 H3) as Hsound.
  rewrite Hrun in Hsound. exact Hsound.
Defined.

(** *** The route that is returned *)

Lemma chain_last_Some (graph : Graph) (src : string) (pr : gmap string (option string))
    (p : list string) (v : string) (c : Z) :
  chain graph src pr p v c → last p = Some v.
Proof. destruct 1; [done | apply last_snoc]. Qed.

Lemma dijkstra_fuel_route (graph : Graph) (src dst : string) (fuel : nat) (r : Route) :
  endpoints_closed graph → costs_nonneg graph → graph !! ""%string = None →
  is_Some (graph !! src) → is_Some (graph !! dst) →
  edge_count graph + size graph + 2 ≤ fuel →
  dijkstra_fuel fuel graph src dst = Some (Found r) →
  NoDup (path r) ∧ head (path r) = Some src ∧ last (path r) = Some dst ∧
  (∀ t, t ∈ path r → is_Some (graph !! t)) ∧
  length (path r) ≤ size graph ∧
  ∃ d, distance r = Some (Num d) ∧ (0 ≤ d)%Z ∧ walk graph src (path r) dst d.
Proof.
  intros Hclosed Hnonneg Hempty Hsrc Hdst Hfuel Hrun.
  destruct (search_loop_init graph src Hclosed Hnonneg dst fuel Hsrc)
    as (st & u & rest & Hloop & HI & _); [lia |].
  unfold dijkstra_fuel in Hrun. rewrite Hloop in Hrun.
  assert (is_Some (dist st !! dst)) as [dv Hdv].
  { apply elem_of_dom. rewrite (inv_dom_dist HI). by apply elem_of_dom. }
  rewrite Hdv in Hrun. destruct dv as [d|]; [|done]. simpl in Hrun.
  destruct (inv_chain HI _ _ Hdv) as (p & Hp & Hnd & _).
  assert (length p ≤ size graph) as Hlen
    by (eapply chain_length; [done | done | apply (inv_dom_prev HI)]).
  assert (∀ t, t ∈ p → is_Some (graph !! t)) as Hkeys.
  { intros t Ht. apply elem_of_dom. rewrite <-(inv_dom_prev HI).
    by eapply chain_dom. }
  erewrite build_path_chain in Hrun; [| done | | lia].
  - rewrite app_nil_r in Hrun. simplify_eq. simpl.
    assert (walk graph src p dst d) as Hw by (by eapply chain_walk).
    split; [done |]. split.
    { destruct (walk_head _ _ _ _ _ Hw) as [p' ->]. done. }
    split; [by eapply chain_last_Some |]. split; [done |]. split; [done |].
    exists d. split; [done |]. split; [by eapply walk_cost_nonneg | done].
  - intros t Ht ->. apply Hkeys in Ht as [? ?]. congruence.
Qed.

Lemma dijkstra_fuel_no_throw (graph : Graph) (src dst : string) (fuel : nat) :
  endpoints_closed graph → costs_nonneg graph → is_Some (graph !! src) →
  edge_count graph + size graph + 2 ≤ fuel →
  dijkstra_fuel fuel graph src dst ≠ Some TypeError.
Proof.
  intros Hclosed Hnonneg Hsrc Hfuel.
  destruct (search_loop_init graph src Hclosed Hnonneg dst fuel Hsrc)
    as (st & u & rest & Hloop & _); [lia |].
  unfold dijkstra_fuel. rewrite Hloop.
  destruct (is_Infinity _); [done |]. by destruct (build_path _ _ _ _).
Qed.

(** Extra X6: when edge endpoints are keys, costs are non-negative
    integers that, multiplied by the number of nodes, do not exceed 2^53,
    neither the empty string nor [__proto__] is a key and [src] and [dst]
    are keys, the path of a route returned by [dijkstra] visits no node
    twice, starts at [src], ends at [dst], holds keys of the graph only, is
    no longer than the number of nodes, and its cost is the distance
    returned, which is not negative. *)
Theorem dijkstra_route_is_simple (graph : Graph) (src dst : string) (r : Route) :
  endpoints_closed graph → costs_nonneg graph → costs_exact graph →
  graph !! ""%string = None → graph !! "__proto__"%string = None →
  is_Some (graph !! src) → is_Some (graph !! dst) →
  dijkstra graph src dst = Some (Found r) →
  NoDup (path r) ∧ head (path r) = Some src ∧ last (path r) = Some dst ∧
  (∀ t, t ∈ path r → is_Some (graph !! t)) ∧
  length (path r) ≤ size graph ∧
  ∃ d, distance r = Some (Num d) ∧ (0 ≤ d)%Z ∧ walk graph src (path r) dst d.
Proof.
  intros Hclosed Hnonneg _ Hempty _ Hsrc Hdst Hrun.
  by apply (dijkstra_fuel_route graph src dst _ r Hclosed Hnonneg Hempty Hsrc Hdst
              (le_n _) Hrun).
Qed.

Lemma dijkstra_route_is_simple_witness :
  (endpoints_closed server2 ∧ costs_nonneg server2 ∧ costs_exact server2 ∧
   server2 !! ""%string = None ∧ server2 !! "__proto__"%string = None ∧
   is_Some (server2 !! "A"%string) ∧ is_Some (server2 !! "G"%string)) ∧
  ∃ r, dijkstra server2 "A" "G" = Some (Found r) ∧ NoDup (path r) ∧
       last (path r) = Some "G"%string.
Proof.
  assert (endpoints_closed server2 ∧ costs_nonneg server2) as [H1 H2]
    by (apply graph_ok_sound; vm_compute; reflexivity).
  assert (costs_exact server2) as H3 by (apply graph_exact_sound; vm_compute; reflexivity).
  assert (server2 !! ""%string = None) as H4 by (vm_compute; reflexivity).
  assert (server2 !! "__proto__"%string = None) as H5 by (vm_compute; reflexivity).
  assert (is_Some (server2 !! "A"%string)) as H6 by (eexists; vm_compute; reflexivity).
  assert (is_Some (server2 !! "G"%string)) as H7 by (eexists; vm_compute; reflexivity).
  split; [done |].
  assert (∃ r, dijkstra server2 "A" "G" = Some (Found r)) as [r Hr]
    by (eexists; vm_compute; reflexivity).
  exists r. split; [done |].
  destruct (dijkstra_route_is_simple server2 "A" "G" r H1 H2 H3 H4 H5 H6 H7 Hr)
    as (Hnd & _ & Hlast & _).
  by split.
Defined.

(** *** Requests against the regional tables *)

Lemma regional_graph_ok (i : nat) (graph : Graph) :
  REGIONAL_GRAPHS !! i = Some graph →
  endpoints_closed graph ∧ costs_nonneg graph ∧ graph !! ""%string = None ∧
  dom graph = dom NODE_COORDS_object.
Proof.
  intros Hi.
  assert (graph_ok graph = true ∧ graph !! ""%string = None ∧
          dom graph = dom NODE_COORDS_object) as (Hok & Hempty & Hdom).
  { destruct i as [|[|[|i]]]; simpl in Hi; simplify_eq;
      (split; [vm_compute; reflexivity |]; split; [vm_compute; reflexivity |]);
      apply (bool_decide_unpack _); vm_compute; exact I. }
  destruct (graph_ok_sound graph Hok). done.
Qed.

Lemma regional_lookup (counter : nat) :
  is_Some (REGIONAL_GRAPHS !! (counter mod BACKEND_COUNT)).
Proof.
  apply lookup_lt_is_Some_2. unfold BACKEND_COUNT. simpl. lia.
Qed.

Lemma result_server_submitRequest (fromNode toNode : option string) (rate random : Q)
    (st : AppState) :
  result_server (submitRequest fromNode toNode rate random st).1 =
    if truthy fromNode && truthy toNode
    then Some (roundRobinState st mod BACKEND_COUNT) else None.
Proof.
  unfold submitRequest, selectBackend.
  destruct (truthy fromNode), (truthy toNode); cbn [negb orb andb]; try done.
  destruct (Qltb random rate); [done |].
  destruct (REGIONAL_GRAPHS !! _) as [graph|]; [|done].
  by destruct (dijkstra graph _ _) as [[| |]|].
Qed.

(** Extra X7: on the tables of the prototype the engine always ends within
    its budget, so no request is left unfinished; and a request that is
    dispatched names the server [roundRobinState % 3], which is an index of
    [REGIONAL_GRAPHS]. *)
Theorem submitRequest_always_completes (fromNode toNode : option string)
    (rate random : Q) (st : AppState) :
  (∀ i, (submitRequest fromNode toNode rate random st).1 ≠ Unfinished i) ∧
  ∀ i, result_server (submitRequest fromNode toNode rate random st).1 = Some i →
       i = roundRobinState st mod BACKEND_COUNT ∧ i < length REGIONAL_GRAPHS.
Proof.
  split.
  - intros i. unfold submitRequest, selectBackend.
    destruct (negb (truthy fromNode) || negb (truthy toNode)); [done |].
    destruct (Qltb random rate); [done |].
    destruct (REGIONAL_GRAPHS !! _) as [graph|] eqn:Hgraph; [|done].
    destruct (regional_graph_ok _ _ Hgraph) as (Hclosed & Hnonneg & _).
    destruct (dijkstra_fuel_enough graph (default ""%string fromNode)
                (default ""%string toNode) Hclosed Hnonneg) as (r & -> & _).
    by destruct r.
  - intros i. rewrite result_server_submitRequest.
    destruct (truthy fromNode && truthy toNode); [|done]. intros [= <-].
    split; [done |]. unfold BACKEND_COUNT. simpl. lia.
Qed.

Lemma submitRequest_always_completes_witness :
  result_server
    (submitRequest (Some "A"%string) (Some "G"%string) 0 0
       {| roundRobinState := 7; logs := []; engineCalls := 0 |}).1 = Some 1 ∧
  1 < length REGIONAL_GRAPHS.
Proof.
  assert (result_server
    (submitRequest (Some "A"%string) (Some "G"%string) 0 0
       {| roundRobinState := 7; logs := []; engineCalls := 0 |}).1 = Some 1) as Hres
    by (vm_compute; reflexivity).
  split; [done |].
  destruct (submitRequest_always_completes (Some "A"%string) (Some "G"%string) 0 0
              {| roundRobinState := 7; logs := []; engineCalls := 0 |}) as [_ Hidx].
  destruct (Hidx 1 Hres) as [_ Hlt]. exact Hlt.
Defined.

(** Extra X8: a request between two nodes of the graph of the selected
    server that passes the failure draw ends as no-route exactly when the
    destination is unreachable in that graph, and otherwise as a route of
    minimum total cost in that graph. *)
Theorem submitRequest_finds_shortest_route (f t : string) (rate random : Q)
    (st : AppState) (graph : Graph) :
  REGIONAL_GRAPHS !! (roundRobinState st mod BACKEND_COUNT) = Some graph →
  is_Some (graph !! f) → is_Some (graph !! t) → Qltb random rate = false →
  let res := (submitRequest (Some f) (Some t) rate random st).1 in
  let serverIndex := roundRobinState st mod BACKEND_COUNT in
  (¬ reachable graph f t → res = NotFound serverIndex) ∧
  (reachable graph f t →
   ∃ p d, res = RouteFound serverIndex {| path := p; distance := Some (Num d) |} ∧
          walk graph f p t d ∧ ∀ p' d', walk graph f p' t d' → (d ≤ d')%Z).
Proof.
  intros Hgraph Hf Ht Hrate res serverIndex.
  destruct (regional_graph_ok _ _ Hgraph) as (Hclosed & Hnonneg & Hempty & _).
  assert (∀ s, is_Some (graph !! s) → truthy (Some s) = true) as Htruthy.
  { intros s [es Hs]. simpl. destruct (String.eqb_spec s ""); [congruence | done]. }
  subst res. rewrite (submitRequest_engine f t rate random st graph
    (Htruthy f Hf) (Htruthy t Ht) Hrate Hgraph). cbn zeta.
  destruct (dijkstra_fuel_present graph f Hclosed Hnonneg t _ Hf Ht Hempty (le_n _))
    as [Hnone Hsome].
  fold (dijkstra graph f t) in Hnone, Hsome. split.
  - intros Hun. by rewrite (Hnone Hun).
  - intros Hre. destruct (Hsome Hre) as (p & d & -> & Hw & Hmin). by exists p, d.
Qed.

Lemma submitRequest_finds_shortest_route_witness :
  (REGIONAL_GRAPHS !! (1 mod BACKEND_COUNT) = Some server2 ∧
   is_Some (server2 !! "A"%string) ∧ is_Some (server2 !! "D"%string) ∧
   Qltb 0 0 = false) ∧
  (submitRequest (Some "A"%string) (Some "D"%string) 0 0
     {| roundRobinState := 1; logs := []; engineCalls := 0 |}).1 =
    RouteFound 1 {| path := ["A"; "B"; "D"]%string; distance := Some (Num 2) |}.
Proof.
  assert (REGIONAL_GRAPHS !! (1 mod BACKEND_COUNT) = Some server2) as H1 by reflexivity.
  assert (is_Some (server2 !! "A"%string)) as H2 by (eexists; vm_compute; reflexivity).
  assert (is_Some (server2 !! "D"%string)) as H3 by (eexists; vm_compute; reflexivity).
  assert (Qltb 0 0 = false) as H4 by reflexivity.
  split; [done |].
  destruct (submitRequest_finds_shortest_route "A" "D" 0 0
              {| roundRobinState := 1; logs := []; engineCalls := 0 |} server2
              H1 H2 H3 H4) as [_ Hfound].
  destruct Hfound as (p & d & Hres & _).
  - exists ["A"; "B"; "D"]%string, (0 + 1 + 1)%Z.
    apply (walk_step server2 "A" ["A"; "B"]%string "B" (0 + 1) (edge "D" 1)).
    + apply (walk_step server2 "A" ["A"%string] "A" 0 (edge "B" 1)); [constructor |].
      eexists. split; [vm_compute; reflexivity | by left].
    + eexists. split; [vm_compute; reflexivity |]. right. by left.
  - rewrite Hres. vm_compute in Hres. by injection Hres as <- <-.
Defined.

(** Extra X9: a dispatched request that passes the failure draw ends with
    the uncaught TypeError of the engine exactly when its source is not a
    node of the graph of the selected server and differs from its
    destination. *)
Theorem submitRequest_error_iff (f t : string) (rate random : Q) (st : AppState)
    (graph : Graph) :
  REGIONAL_GRAPHS !! (roundRobinState st mod BACKEND_COUNT) = Some graph →
  truthy (Some f) = true → truthy (Some t) = true → Qltb random rate = false →
  (submitRequest (Some f) (Some t) rate random st).1 =
    RequestError (roundRobinState st mod BACKEND_COUNT)
  ↔ graph !! f = None ∧ f ≠ t.
Proof.
  intros Hgraph Hf Ht Hrate.
  destruct (regional_graph_ok _ _ Hgraph) as (Hclosed & Hnonneg & _).
  rewrite (submitRequest_engine f t rate random st graph Hf Ht Hrate Hgraph). cbn zeta.
  destruct (graph !! f) as [es|] eqn:Hsrc.
  - pose proof (dijkstra_fuel_no_throw graph f t _ Hclosed Hnonneg
                  (mk_is_Some _ _ Hsrc) (le_n _)) as Hno.
    fold (dijkstra graph f t) in Hno.
    split; [|by intros [? _]].
    by destruct (dijkstra graph f t) as [[| |]|].
  - unfold dijkstra.
    replace (edge_count graph + size graph + 2)
      with (S (edge_count graph + size graph + 1)) by lia.
    rewrite dijkstra_fuel_src_absent by done.
    destruct (String.eqb_spec f t); split; try done; by intros [_ ?].
Qed.

Lemma submitRequest_error_iff_witness :
  (REGIONAL_GRAPHS !! (0 mod BACKEND_COUNT) = Some server1 ∧
   truthy (Some "Z"%string) = true ∧ truthy (Some "A"%string) = true ∧
   Qltb 0 0 = false) ∧
  (submitRequest (Some "Z"%string) (Some "A"%string) 0 0
     {| roundRobinState := 0; logs := []; engineCalls := 0 |}).1 = RequestError 0.
Proof.
  assert (REGIONAL_GRAPHS !! (0 mod BACKEND_COUNT) = Some server1) as H1 by reflexivity.
  assert (truthy (Some "Z"%string) = true) as H2 by reflexivity.
  assert (truthy (Some "A"%string) = true) as H3 by reflexivity.
  assert (Qltb 0 0 = false) as H4 by reflexivity.
  split; [done |].
  apply (submitRequest_error_iff "Z" "A" 0 0
           {| roundRobinState := 0; logs := []; engineCalls := 0 |} server1 H1 H2 H3 H4).
  split; [vm_compute; reflexivity | discriminate].
Defined.

(** *** Counting over sequences of requests *)

Lemma Qltb_rate_zero (rate random : Q) :
  (rate == 0)%Q → (0 <= random)%Q → Qltb random rate = false.
Proof.
  intros Hrate Hrandom. unfold Qltb.
  assert (Qle_bool rate random = true) as ->; [|done].
  apply Qle_bool_iff. by rewrite Hrate.
Qed.

(** Extra X10: over a sequence of requests the engine is called once for
    each request that is dispatched and passes its failure draw, and for no
    other; with failure rate 0 (and draws that are not negative) that is
    once for each request that passes the endpoint guard. *)
Theorem submit_all_engine_calls (st : AppState) (requests : list Request) :
  engineCalls (submit_all st requests) =
    engineCalls st + length (List.filter reaches_engine requests) ∧
  (Forall (λ r, (req_rate r == 0)%Q ∧ (0 <= req_random r)%Q) requests →
   engineCalls (submit_all st requests) =
     engineCalls st + length (List.filter reaches_dispatch requests)).
Proof.
  assert (∀ reqs st0, engineCalls (submit_all st0 reqs) =
            engineCalls st0 + length (List.filter reaches_engine reqs)) as Hcount.
  { unfold submit_all. induction reqs as [|r reqs IH]; intros st0; [simpl; lia |].
    cbn [fold_left List.filter]. rewrite IH. unfold submit.
    destruct (submitRequest_counters (req_from r) (req_to r) (req_rate r)
                (req_random r) st0) as [_ ->].
    unfold reaches_engine at 2, reaches_dispatch.
    destruct (truthy (req_from r) && truthy (req_to r) &&
              negb (Qltb (req_random r) (req_rate r))); simpl; lia. }
  split; [apply Hcount |]. intros Hall. rewrite Hcount. f_equal. f_equal.
  induction Hall as [|r reqs [Hrate Hrandom] _ IH]; [done |].
  cbn [List.filter]. unfold reaches_engine at 1.
  rewrite (Qltb_rate_zero _ _ Hrate Hrandom), andb_true_r.
  destruct (reaches_dispatch r); by rewrite IH.
Qed.

Lemma submit_all_engine_calls_witness :
  Forall (λ r, (req_rate r == 0)%Q ∧ (0 <= req_random r)%Q)
    [{| req_from := Some "A"%string; req_to := Some "G"%string;
        req_rate := 0; req_random := 1 # 2 |};
     {| req_from := Some "A"%string; req_to := None;
        req_rate := 0; req_random := 0 |}] ∧
  engineCalls
    (submit_all {| roundRobinState := 0; logs := []; engineCalls := 0 |}
       [{| req_from := Some "A"%string; req_to := Some "G"%string;
           req_rate := 0; req_random := 1 # 2 |};
        {| req_from := Some "A"%string; req_to := None;
           req_rate := 0; req_random := 0 |}]) = 1.
Proof.
  assert (Forall (λ r, (req_rate r == 0)%Q ∧ (0 <= req_random r)%Q)
    [{| req_from := Some "A"%string; req_to := Some "G"%string;
        req_rate := 0; req_random := 1 # 2 |};
     {| req_from := Some "A"%string; req_to := None;
        req_rate := 0; req_random := 0 |}]) as Hall.
  { repeat constructor; simpl; try reflexivity; discriminate. }
  split; [done |].
  destruct (submit_all_engine_calls
              {| roundRobinState := 0; logs := []; engineCalls := 0 |}
              [{| req_from := Some "A"%string; req_to := Some "G"%string;
                  req_rate := 0; req_random := 1 # 2 |};
               {| req_from := Some "A"%string; req_to := None;
                  req_rate := 0; req_random := 0 |}]) as [_ Hzero].
  rewrite (Hzero Hall). reflexivity.
Defined.

Lemma take_cons_take {B : Type} (n : nat) (b : B) (l : list B) :
  take (S n) (b :: take (S n) l) = take (S n) (b :: l).
Proof. simpl. f_equal. rewrite take_take. f_equal. lia. Qed.

(** Extra X11: every call of [submitRequest] writes one or two lines in
    front of the log and keeps the 50 newest lines; the log is then neither
    empty nor longer than 50. *)
Theorem submitRequest_log (fromNode toNode : option string) (rate random : Q)
    (st : AppState) :
  let st' := (submitRequest fromNode toNode rate random st).2 in
  (∃ lines, (length lines = 1 ∨ length lines = 2) ∧
            logs st' = take 50 (lines ++ logs st)) ∧
  0 < length (logs st') ≤ 50.
Proof.
  cbn zeta.
  assert (∃ lines, (length lines = 1 ∨ length lines = 2) ∧
            logs (submitRequest fromNode toNode rate random st).2 =
              take 50 (lines ++ logs st)) as (lines & Hlen & Hlogs).
  { unfold submitRequest, selectBackend.
    destruct (negb (truthy fromNode) || negb (truthy toNode)).
    { exists [LogSelectBoth]. split; [by left | done]. }
    destruct (Qltb random rate).
    { eexists [_; _]. split; [by right |]. cbn [snd addLog logs setRoundRobinState].
      apply take_cons_take. }
    destruct (REGIONAL_GRAPHS !! _) as [graph|].
    - destruct (dijkstra graph _ _) as [[| |]|];
        cbn [snd addLog logs setRoundRobinState countEngineCall];
        first [ by (eexists [_; _]; split; [by right | apply take_cons_take])
              | by (eexists [_]; split; [by left | done]) ].
    - eexists [_]. split; [by left | done]. }
  split; [by exists lines |]. rewrite Hlogs, length_take, length_app.
  destruct Hlen as [-> | ->]; lia.
Qed.

(** Extra X12: over any sequence of requests, the servers named by the
    requests that pass the endpoint guard follow the cycle that starts at
    [roundRobinState % 3], whatever each outcome is and however many
    rejected requests come in between. *)
Theorem submit_results_round_robin (st : AppState) (requests : list Request) :
  omap result_server (submit_results st requests) =
    cycle BACKEND_COUNT (roundRobinState st)
      (length (List.filter reaches_dispatch requests)).
Proof.
  revert st. induction requests as [|r requests IH]; intros st; [done |].
  cbn [submit_results List.filter].
  pose proof (result_server_submitRequest (req_from r) (req_to r) (req_rate r)
                (req_random r) st) as Hserver.
  destruct (submitRequest_counters (req_from r) (req_to r) (req_rate r)
              (req_random r) st) as [Hcounter _].
  destruct (submitRequest (req_from r) (req_to r) (req_rate r) (req_random r) st)
    as [res st1].
  cbn [fst snd] in Hserver, Hcounter.
  change (truthy (req_from r) && truthy (req_to r)) with (reaches_dispatch r)
    in Hserver, Hcounter.
  cbn [omap list_omap]. rewrite Hserver, IH, Hcounter.
  destruct (reaches_dispatch r).
  - cbn [length]. unfold cycle. cbn [seq fmap list_fmap].
    f_equal; [by rewrite Nat.add_0_r |].
    rewrite <-fmap_S_seq, <-list_fmap_compose. apply list_fmap_ext.
    intros _ j _. cbn [compose]. f_equal. lia.
  - by rewrite Nat.add_0_r.
Qed.

(** *** The nearest node, without assumptions on the order *)

Lemma nearest_fold_member {N : Type} `{JsNumber N} (lat0 lon0 : N)
    (coords : list (string * Coord N)) (id : string) :
  (fold_left (nearest_step lat0 lon0) coords (None, js_infinity)).1 = Some id →
  ∃ entry, entry ∈ coords ∧ entry.1 = id.
Proof.
  revert id. induction coords as [|x coords IH] using rev_ind; intros id; [done |].
  rewrite fold_left_app. simpl. unfold nearest_step at 1.
  destruct (js_lt (degree_distance lat0 lon0 x.2) _).
  - simpl. intros [= <-]. exists x. split; [|done]. apply elem_of_app. right. by left.
  - intros Hid. destruct (IH id Hid) as (entry & Hin & Heq).
    exists entry. split; [|done]. apply elem_of_app. by left.
Qed.

Lemma nearest_fold_none {N : Type} `{JsNumber N} (lat0 lon0 : N)
    (coords : list (string * Coord N)) :
  (∀ entry, entry ∈ coords →
     js_lt (degree_distance lat0 lon0 entry.2) js_infinity = false) →
  fold_left (nearest_step lat0 lon0) coords (None, js_infinity) = (None, js_infinity).
Proof.
  induction coords as [|x coords IH] using rev_ind; intros Hall; [done |].
  rewrite fold_left_app, IH.
  - simpl. unfold nearest_step. simpl. rewrite Hall; [done |].
    apply elem_of_app. right. by left.
  - intros entry Hin. apply Hall. apply elem_of_app. by left.
Qed.

(** Extra X13: with no assumption on the numbers, the identifier returned
    by [nearestNode] is the identifier of an entry of the table. *)
Theorem nearestNode_is_in_table {N : Type} `{JsNumber N}
    (coords : list (string * Coord N)) (lat0 lon0 : N) (id : string) :
  nearestNode coords lat0 lon0 = Some id →
  ∃ entry, entry ∈ coords ∧ entry.1 = id.
Proof. apply nearest_fold_member. Qed.

Lemma nearestNode_is_in_table_witness :
  nearestNode NODE_COORDS (-33)%float 18%float = Some "A"%string ∧
  ∃ entry, entry ∈ NODE_COORDS ∧ entry.1 = "A"%string.
Proof.
  assert (nearestNode NODE_COORDS (-33)%float 18%float = Some "A"%string)
    as Hrun by (vm_compute; reflexivity).
  split; [done |].
  apply (nearestNode_is_in_table NODE_COORDS (-33)%float 18%float "A" Hrun).
Defined.

(** Extra X14: when no entry has a distance below [Infinity] (an empty
    table, or a coordinate that is not a finite number) [nearestNode]
    returns [null]. *)
Theorem nearestNode_without_finite_distance {N : Type} `{JsNumber N}
    (coords : list (string * Coord N)) (lat0 lon0 : N) :
  (∀ entry, entry ∈ coords →
     js_lt (degree_distance lat0 lon0 entry.2) js_infinity = false) →
  nearestNode coords lat0 lon0 = None.
Proof.
  intros Hall. unfold nearestNode. by rewrite nearest_fold_none.
Qed.

Lemma nearestNode_without_finite_distance_witness :
  (∀ entry, entry ∈ NODE_COORDS →
     js_lt (degree_distance infinity 18%float entry.2) js_infinity = false) ∧
  nearestNode NODE_COORDS infinity 18%float = None.
Proof.
  assert (∀ entry, entry ∈ NODE_COORDS →
     js_lt (degree_distance infinity 18%float entry.2) js_infinity = false) as Hall.
  { intros entry He. unfold NODE_COORDS in He.
    repeat (apply elem_of_cons in He as [->|He]; [vm_compute; reflexivity |]).
    by apply elem_of_nil in He. }
  split; [done |].
  apply (nearestNode_without_finite_distance NODE_COORDS infinity 18%float Hall).
Defined.

(** *** Picking a node *)

Lemma slice_nodeEntityId (id : string) : slice 5 (nodeEntityId id) = id.
Proof. reflexivity. Qed.

Lemma startsWith_nodeEntityId (id : string) :
  startsWith "node-" (nodeEntityId id) = true.
Proof. reflexivity. Qed.

Lemma installed_click_on_node (id : string) (sel : Selection) :
  onLeftClick (Some "A"%string) (Some "G"%string) (Some (nodeEntityId id)) sel =
    ({| sel_from := Some id; sel_to := None |}, Some (SelectedFrom id)).
Proof.
  unfold onLeftClick. by rewrite startsWith_nodeEntityId, slice_nodeEntityId.
Qed.

(** Extra X15: the identifier ['node-'+id] of a marker reads back as [id]:
    a click on the marker selects [id], as source when the handler sees no
    source or sees both endpoints, as destination otherwise; a click on an
    entity whose identifier does not start with ['node-'] changes
    nothing. *)
Theorem click_reads_back_the_node (seenFrom seenTo : option string) (id : string)
    (sel : Selection) :
  slice 5 (nodeEntityId id) = id ∧
  onLeftClick seenFrom seenTo (Some (nodeEntityId id)) sel =
    (if negb (truthy seenFrom) || (truthy seenFrom && truthy seenTo)
     then ({| sel_from := Some id; sel_to := None |}, Some (SelectedFrom id))
     else ({| sel_from := sel_from sel; sel_to := Some id |}, Some (SelectedTo id))) ∧
  ∀ entityId, startsWith "node-" entityId = false →
              onLeftClick seenFrom seenTo (Some entityId) sel = (sel, None).
Proof.
  split; [reflexivity |]. split.
  - unfold onLeftClick. rewrite startsWith_nodeEntityId, slice_nodeEntityId. done.
  - intros entityId Hno. unfold onLeftClick. rewrite Hno. by rewrite andb_false_r.
Qed.

Lemma click_reads_back_the_node_witness :
  startsWith "node-" "route" = false ∧
  onLeftClick None None (Some "route"%string)
    {| sel_from := Some "A"%string; sel_to := None |} =
    ({| sel_from := Some "A"%string; sel_to := None |}, None).
Proof.
  assert (startsWith "node-" "route" = false) as Hno by reflexivity.
  split; [done |].
  destruct (click_reads_back_the_node None None ""%string
              {| sel_from := Some "A"%string; sel_to := None |}) as (_ & _ & Hother).
  apply (Hother "route"%string Hno).
Defined.

(** Extra X16: the click handler as installed never selects a
    destination: a click changes nothing or clears the destination, and a
    click on the marker of [id] makes [id] the source and clears the
    destination, so that a request submitted next is rejected by the
    endpoint guard and leaves the round-robin counter alone. *)
Theorem click_never_selects_destination (pickedId : option string) (sel : Selection)
    (id : string) (rate random : Q) (st : AppState) :
  ((installedClickHandler pickedId sel).1 = sel ∨
   sel_to (installedClickHandler pickedId sel).1 = None) ∧
  let sel' := (installedClickHandler (Some (nodeEntityId id)) sel).1 in
  sel' = {| sel_from := Some id; sel_to := None |} ∧
  (submitRequest (sel_from sel') (sel_to sel') rate random st).1 = MissingEndpoint ∧
  roundRobinState (submitRequest (sel_from sel') (sel_to sel') rate random st).2 =
    roundRobinState st.
Proof.
  split.
  - unfold installedClickHandler, onLeftClick. destruct pickedId as [entityId|]; [|by left].
    destruct (negb (String.eqb entityId "") && startsWith "node-" entityId);
      [by right | by left].
  - cbn zeta.
    assert ((installedClickHandler (Some (nodeEntityId id)) sel).1 =
            {| sel_from := Some id; sel_to := None |}) as ->.
    { unfold installedClickHandler. by rewrite installed_click_on_node. }
    split; [done |]. simpl sel_from. simpl sel_to.
    split; [apply submitRequest_missing; by rewrite andb_false_r |].
    destruct (submitRequest_counters (Some id) None rate random st) as [-> _].
    rewrite andb_false_r. lia.
Qed.

(** *** Drawing the route *)

Lemma route_positions_defined (route : list string) :
  (∀ n, n ∈ route → is_Some (NODE_COORDS_object !! n)) →
  ∃ positions, route_positions route = Some positions ∧
               length positions = length route.
Proof.
  intros Hall.
  assert (is_Some (route_positions route)) as [positions Hp].
  { apply mapM_is_Some. apply Forall_forall. intros n Hn. simpl.
    destruct (Hall n Hn) as [c ->]. done. }
  exists positions. split; [done |].
  apply mapM_Some in Hp. symmetry. by eapply Forall2_length.
Qed.

(** Extra X17: a route found between two nodes of the graph of the
    selected server can be drawn: every node of its path has an entry in
    [NODE_COORDS], so the positions are computed without error, one per
    node, at least one and at most as many as there are entries. *)
Theorem found_route_can_be_drawn (f t : string) (rate random : Q) (st : AppState)
    (graph : Graph) (i : nat) (r : Route) :
  REGIONAL_GRAPHS !! (roundRobinState st mod BACKEND_COUNT) = Some graph →
  is_Some (graph !! f) → is_Some (graph !! t) →
  (submitRequest (Some f) (Some t) rate random st).1 = RouteFound i r →
  ∃ positions, route_positions (path r) = Some positions ∧
               length positions = length (path r) ∧
               0 < length positions ≤ length NODE_COORDS.
Proof.
  intros Hgraph Hf Ht Hres.
  destruct (regional_graph_ok _ _ Hgraph) as (Hclosed & Hnonneg & Hempty & Hdom).
  assert (∀ s, is_Some (graph !! s) → truthy (Some s) = true) as Htruthy.
  { intros s [es Hs]. simpl. destruct (String.eqb_spec s ""); [congruence | done]. }
  assert (dijkstra graph f t = Some (Found r)) as Hrun.
  { destruct (Qltb random rate) eqn:Hrate.
    - by rewrite (submitRequest_failure _ _ _ _ _ (Htruthy f Hf) (Htruthy t Ht) Hrate)
        in Hres.
    - rewrite (submitRequest_engine f t rate random st graph
                 (Htruthy f Hf) (Htruthy t Ht) Hrate Hgraph) in Hres.
      cbn zeta in Hres. destruct (dijkstra graph f t) as [[| |]|]; by simplify_eq. }
  destruct (dijkstra_fuel_route graph f t _ r Hclosed Hnonneg Hempty Hf Ht (le_n _) Hrun)
    as (_ & Hhead & _ & Hkeys & Hlen & _).
  destruct (route_positions_defined (path r)) as (positions & Hp & Hl).
  { intros n Hn. apply elem_of_dom. rewrite <-Hdom. apply elem_of_dom. by apply Hkeys. }
  exists positions. split; [done |]. split; [done |]. rewrite Hl. split.
  - destruct (path r); [done | simpl; lia].
  - assert (size graph = length NODE_COORDS) as <-; [|done].
    rewrite <-size_dom, Hdom. reflexivity.
Qed.

Lemma found_route_can_be_drawn_witness :
  (REGIONAL_GRAPHS !! (2 mod BACKEND_COUNT) = Some server3 ∧
   is_Some (server3 !! "A"%string) ∧ is_Some (server3 !! "G"%string)) ∧
  ∃ positions, route_positions ["A"; "C"; "F"; "G"]%string = Some positions ∧
               length positions = 4.
Proof.
  assert (REGIONAL_GRAPHS !! (2 mod BACKEND_COUNT) = Some server3) as H1 by reflexivity.
  assert (is_Some (server3 !! "A"%string)) as H2 by (eexists; vm_compute; reflexivity).
  assert (is_Some (server3 !! "G"%string)) as H3 by (eexists; vm_compute; reflexivity).
  split; [done |].
  assert ((submitRequest (Some "A"%string) (Some "G"%string) 0 0
             {| roundRobinState := 2; logs := []; engineCalls := 0 |}).1 =
          RouteFound 2 {| path := ["A"; "C"; "F"; "G"]%string;
                          distance := Some (Num 5) |}) as Hres
    by (vm_compute; reflexivity).
  destruct (found_route_can_be_drawn "A" "G" 0 0
              {| roundRobinState := 2; logs := []; engineCalls := 0 |} server3 2 _
              H1 H2 H3 Hres) as (positions & Hp & Hl & _).
  by exists positions.
Defined.

(** Extra X18: a dispatched request from a node of the graph of the
    selected server to an identifier that is no node of it (not empty, and
    no property name of [Object.prototype]) passes for a success: it ends
    as a found route with path [[t]] and undefined distance, and that line
    is the newest of the log. *)
Theorem unknown_destination_passes_for_a_route (f t : string) (rate random : Q)
    (st : AppState) (graph : Graph) :
  REGIONAL_GRAPHS !! (roundRobinState st mod BACKEND_COUNT) = Some graph →
  is_Some (graph !! f) → graph !! t = None → plain_identifier t →
  Qltb random rate = false →
  let serverIndex := roundRobinState st mod BACKEND_COUNT in
  let r := {| path := [t]; distance := None |} in
  (submitRequest (Some f) (Some t) rate random st).1 = RouteFound serverIndex r ∧
  head (logs (submitRequest (Some f) (Some t) rate random st).2) =
    Some (LogRouteFound (serverIndex + 1) r).
Proof.
  intros Hgraph Hf Ht Hplain Hrate serverIndex r.
  destruct (regional_graph_ok _ _ Hgraph) as (Hclosed & Hnonneg & Hempty & Hdom).
  assert (truthy (Some f) = true) as Htf.
  { destruct Hf as [es Hs]. simpl. destruct (String.eqb_spec f ""); [congruence | done]. }
  pose proof (plain_identifier_truthy t Hplain) as Htt.
  assert (dijkstra graph f t = Some (Found r)) as Hrun.
  { unfold dijkstra. rewrite dijkstra_fuel_dst_absent by done.
    destruct Hplain as [Hne _]. by destruct (String.eqb_spec t ""). }
  split.
  - rewrite (submitRequest_engine f t rate random st graph Htf Htt Hrate Hgraph).
    cbn zeta. by rewrite Hrun.
  - unfold submitRequest, selectBackend. rewrite Htf, Htt, Hrate, Hgraph.
    cbn [negb orb default]. unfold id. by rewrite Hrun.
Qed.

Lemma unknown_destination_passes_for_a_route_witness :
  (REGIONAL_GRAPHS !! (0 mod BACKEND_COUNT) = Some server1 ∧
   is_Some (server1 !! "A"%string) ∧ server1 !! "Z"%string = None ∧
   plain_identifier "Z" ∧ Qltb 0 0 = false) ∧
  (submitRequest (Some "A"%string) (Some "Z"%string) 0 0
     {| roundRobinState := 0; logs := []; engineCalls := 0 |}).1 =
    RouteFound 0 {| path := ["Z"%string]; distance := None |}.
Proof.
  assert (REGIONAL_GRAPHS !! (0 mod BACKEND_COUNT) = Some server1) as H1 by reflexivity.
  assert (is_Some (server1 !! "A"%string)) as H2 by (eexists; vm_compute; reflexivity).
  assert (server1 !! "Z"%string = None) as H3 by (vm_compute; reflexivity).
  assert (plain_identifier "Z") as H4
    by (split; [discriminate | apply (bool_decide_unpack _); vm_compute; exact I]).
  assert (Qltb 0 0 = false) as H5 by reflexivity.
  split; [done |].
  destruct (unknown_destination_passes_for_a_route "A" "Z" 0 0
              {| roundRobinState := 0; logs := []; engineCalls := 0 |} server1
              H1 H2 H3 H4 H5) as (Hres & _).
  exact Hres.
Defined.
